(** * hexavalent code generators: a shallow embedding

    The repository contains three small Node.js generators:

    - [src/print/generate.js]  reads [text.c] and [textevents.in] and writes
      one [print_event!] line per text event;
    - the preference generator reads [cfgfiles.c] and writes one [pref!] line
      per preference row;
    - the handle generator rewrites every [unsafe fn] block of
      [handle_orig.rs] into a forwarding wrapper.

    All three are text transformations built from [String.prototype.split],
    regular expressions and template literals.  The embedding below models
    the JavaScript values they manipulate, the fragment of regular
    expressions they use, and then each generator function by function. *)

From Stdlib Require Import Ascii String List Arith Lia DecimalString.
From stdpp Require Import base option list gmap strings.

Local Open Scope string_scope.
Local Open Scope list_scope.
Local Open Scope nat_scope.

#[local] Arguments String.append !s1 s2 : simpl nomatch.

(** ** JavaScript values and primitives *)

Module Js.

(** A string is a sequence of code units; the model covers the code units
    below 256, which is what [ascii] holds.  The only place a value can be
    [undefined] in these programs is an array read or a capture group, so a
    value is an optional string. *)
Abbreviation value := (option string).

(** Template-literal interpolation and property-key conversion. *)
Definition to_string (v : value) : string :=
  match v with
  | Some s => s
  | None => "undefined"
  end.

(** Exceptions the generators can raise. *)
Inductive exn : Type :=
| TypeError                (* property read or destructuring of undefined / null *)
| Error (msg : string).    (* [throw new Error(msg)] *)

Inductive result (A : Type) : Type :=
| Ok (a : A)
| Throw (e : exn).
Arguments Ok {A} a.
Arguments Throw {A} e.

(** A generator that has been run to the end: the values it yielded, and the
    exception that stopped it, if any. *)
Record gen (A : Type) : Type := Gen { yielded : list A; raised : option exn }.
Arguments Gen {A} yielded raised.
Arguments yielded {A} g.
Arguments raised {A} g.

Definition gen_yield {A} (a : A) (g : gen A) : gen A :=
  Gen (a :: yielded g) (raised g).

(** *** Character classes *)

Definition code (c : ascii) : nat := nat_of_ascii c.

Definition between (lo hi n : nat) : bool := (lo <=? n) && (n <=? hi).

(** [\w] is [[A-Za-z0-9_]]. *)
Definition is_word (c : ascii) : bool :=
  between 48 57 (code c) || between 65 90 (code c)
  || between 97 122 (code c) || (code c =? 95).

(** [\s]: tab, line feed, vertical tab, form feed, carriage return, space and
    no-break space (the white space and line terminators below 256). *)
Definition is_space (c : ascii) : bool :=
  between 9 13 (code c) || (code c =? 32) || (code c =? 160).

(** [.] matches everything but the line terminators. *)
Definition is_dot (c : ascii) : bool :=
  negb ((code c =? 10) || (code c =? 13)).

(** [toUpperCase] / [toLowerCase] on one code unit.  They are exact on the
    ASCII range, in particular on every word character. *)
Definition upper (c : ascii) : ascii :=
  if between 97 122 (code c) then ascii_of_nat (code c - 32) else c.

Definition lower (c : ascii) : ascii :=
  if between 65 90 (code c) then ascii_of_nat (code c + 32) else c.

Fixpoint map_string (f : ascii -> ascii) (s : string) : string :=
  match s with
  | EmptyString => EmptyString
  | String c s' => String (f c) (map_string f s')
  end.

Definition toUpperCase (s : string) : string := map_string upper s.
Definition toLowerCase (s : string) : string := map_string lower s.

(** Characters that cannot be written inside a literal. *)
Definition nl : ascii := ascii_of_nat 10.
Definition tab : ascii := ascii_of_nat 9.
Definition NL : string := String nl EmptyString.
Definition TAB : string := String tab EmptyString.
Definition QUOTE : string := String (ascii_of_nat 34) EmptyString.

(** *** String methods *)

(** [s.startsWith(p)], returning what follows the prefix. *)
Fixpoint strip_prefix (p s : string) : option string :=
  match p, s with
  | EmptyString, _ => Some s
  | String a p', String b s' => if Ascii.eqb a b then strip_prefix p' s' else None
  | String _ _, EmptyString => None
  end.

Definition startsWith (s p : string) : bool :=
  match strip_prefix p s with Some _ => true | None => false end.

(** [s.includes(p)]. *)
Fixpoint includes (s p : string) : bool :=
  startsWith s p ||
  match s with
  | EmptyString => false
  | String _ s' => includes s' p
  end.

(** [s[0]]: undefined on the empty string. *)
Definition char0 (s : string) : value :=
  match s with
  | EmptyString => None
  | String c _ => Some (String c EmptyString)
  end.

(** [s.slice(1)]. *)
Definition slice1 (s : string) : string :=
  match s with
  | EmptyString => EmptyString
  | String _ s' => s'
  end.

(** [s.split(c)] for a one-character separator string. *)
Fixpoint split_char_go (sep : ascii) (s acc : string) : list string :=
  match s with
  | EmptyString => [acc]
  | String c s' =>
      if Ascii.eqb c sep then acc :: split_char_go sep s' EmptyString
      else split_char_go sep s' (acc +:+ String c EmptyString)
  end.

Definition split_char (sep : ascii) (s : string) : list string :=
  split_char_go sep s EmptyString.

(** [arr.join(sep)]: undefined elements print as the empty string. *)
Fixpoint join (sep : string) (l : list value) : string :=
  match l with
  | [] => EmptyString
  | [v] => default EmptyString v
  | v :: l' => default EmptyString v +:+ sep +:+ join sep l'
  end.

(** Decimal rendering of an array index. *)
Definition show_nat (n : nat) : string := NilZero.string_of_uint (Nat.to_uint n).

(** [arr.map((x, i) => f x i)]. *)
Fixpoint mapi_from {A B} (f : A -> nat -> B) (i : nat) (l : list A) : list B :=
  match l with
  | [] => []
  | x :: l' => f x i :: mapi_from f (S i) l'
  end.

Definition mapi {A B} (f : A -> nat -> B) (l : list A) : list B := mapi_from f 0 l.

(** [arr.map(f)] with a callback that may throw: the first exception wins. *)
Fixpoint map_result {A B} (f : A -> result B) (l : list A) : result (list B) :=
  match l with
  | [] => Ok []
  | x :: l' =>
      match f x with
      | Throw e => Throw e
      | Ok y =>
          match map_result f l' with
          | Throw e => Throw e
          | Ok ys => Ok (y :: ys)
          end
      end
  end.

End Js.

(** ** Regular expressions

    The fragment the generators use: literals, single-character classes,
    greedy and lazy repetition of a class, capture groups, sequencing and the
    two anchors.  Matching is the backtracking search of the language
    standard, written with a success continuation. *)

Module RegExp.
Import Js.

Inductive charset : Type :=
| Ch (c : ascii)            (* a literal character *)
| Any                       (* [.] *)
| Space                     (* [\s] *)
| Word                      (* [\w] *)
| NotWord                   (* [\W] *)
| Except (c : ascii)        (* [[^c]] *)
| Or (a b : charset).       (* [(?:a|b)] on single characters *)

Fixpoint mem (cs : charset) (c : ascii) : bool :=
  match cs with
  | Ch a => Ascii.eqb c a
  | Any => is_dot c
  | Space => is_space c
  | Word => is_word c
  | NotWord => negb (is_word c)
  | Except a => negb (Ascii.eqb c a)
  | Or a b => mem a c || mem b c
  end.

Inductive regex : Type :=
| Lit (s : string)                                (* literal text *)
| One (cs : charset)                              (* one character of a class *)
| Many (greedy : bool) (min : nat) (cs : charset)
                                                  (* [cs*] [cs+] and the lazy [cs+?] *)
| Maybe (cs : charset)                            (* [cs?] *)
| Group (i : nat) (r : regex)                     (* the i-th capture group *)
| Then (r1 r2 : regex)
| Start                                           (* [^] *)
| End_.                                           (* [$] *)

(** Number of slots of the result array: the whole match and the groups. *)
Fixpoint slots (r : regex) : nat :=
  match r with
  | Group i r' => Nat.max (S i) (slots r')
  | Then r1 r2 => Nat.max (slots r1) (slots r2)
  | _ => 1
  end.

(** The least number of characters a match takes. *)
Fixpoint least (r : regex) : nat :=
  match r with
  | Lit l => String.length l
  | One _ => 1
  | Many _ n _ => n
  | Maybe _ => 0
  | Group _ r' => least r'
  | Then r1 r2 => least r1 + least r2
  | Start => 0
  | End_ => 0
  end.

Section Matcher.
Context {A : Type}.

(** Exactly [n] characters of the class. *)
Fixpoint exactly (n : nat) (p : ascii -> bool) (s : string)
    (k : string -> option A) : option A :=
  match n with
  | 0 => k s
  | S n' =>
      match s with
      | String c s' => if p c then exactly n' p s' k else None
      | EmptyString => None
      end
  end.

(** Greedy repetition: as many as possible first, giving back one by one. *)
Fixpoint many_greedy (p : ascii -> bool) (s : string)
    (k : string -> option A) : option A :=
  match s with
  | String c s' =>
      if p c then
        match many_greedy p s' k with
        | Some a => Some a
        | None => k s
        end
      else k s
  | EmptyString => k s
  end.

(** Lazy repetition: as few as possible first, taking one more on failure. *)
Fixpoint many_lazy (p : ascii -> bool) (s : string)
    (k : string -> option A) : option A :=
  match k s with
  | Some a => Some a
  | None =>
      match s with
      | String c s' => if p c then many_lazy p s' k else None
      | EmptyString => None
      end
  end.

(** [run r whole s caps k]: match [r] at the front of [s], where [whole] is
    the length of the complete input and [caps] the captures so far. *)
Fixpoint run (r : regex) (whole : nat) (s : string) (caps : list value)
    (k : string -> list value -> option A) : option A :=
  match r with
  | Lit l =>
      match strip_prefix l s with
      | Some s' => k s' caps
      | None => None
      end
  | One cs =>
      match s with
      | String c s' => if mem cs c then k s' caps else None
      | EmptyString => None
      end
  | Many g n cs =>
      exactly n (mem cs) s (fun s1 =>
        (if g then many_greedy else many_lazy) (mem cs) s1 (fun s2 => k s2 caps))
  | Maybe cs =>
      match s with
      | String c s' =>
          if mem cs c then
            match k s' caps with
            | Some a => Some a
            | None => k s caps
            end
          else k s caps
      | EmptyString => k s caps
      end
  | Group i r' =>
      run r' whole s caps (fun s' caps' =>
        k s' (<[i := Some (substring 0 (String.length s - String.length s') s)]> caps'))
  | Then r1 r2 =>
      run r1 whole s caps (fun s' caps' => run r2 whole s' caps' k)
  | Start => if String.length s =? whole then k s caps else None
  | End_ =>
      match s with
      | EmptyString => k s caps
      | String _ _ => None
      end
  end.
End Matcher.

(** A successful match: where it starts, the result array (slot 0 is the
    matched text, slot [i] the i-th group) and what follows it. *)
Record rmatch : Type := Match { index : nat; arr : list value; after : string }.

(** Array destructuring [const [, a, b] = m]. *)
Definition slot (m : rmatch) (i : nat) : value := mjoin (arr m !! i).

Definition matched (m : rmatch) : string := to_string (slot m 0).

(** Match at the current position only. *)
Definition match_here (r : regex) (whole pos : nat) (s : string) : option rmatch :=
  run r whole s (replicate (slots r) None) (fun s' caps =>
    Some (Match pos
            (<[0 := Some (substring 0 (String.length s - String.length s') s)]> caps)
            s')).

(** First match at or after the current position. *)
Fixpoint search (r : regex) (whole pos : nat) (s : string) : option rmatch :=
  match match_here r whole pos s with
  | Some m => Some m
  | None =>
      match s with
      | String _ s' => search r whole (S pos) s'
      | EmptyString => None
      end
  end.

Fixpoint drop_string (n : nat) (s : string) : string :=
  match n, s with
  | S n', String _ s' => drop_string n' s'
  | _, _ => s
  end.

(** [r.exec(s)] for a pattern without the [g] flag. *)
Definition exec (r : regex) (s : string) : option rmatch :=
  search r (String.length s) 0 s.

(** [r.test(s)]. *)
Definition test (r : regex) (s : string) : bool :=
  match exec r s with Some _ => true | None => false end.

(** [r.exec(s)] for a pattern with the [g] flag: the search starts at
    [lastIndex], which the call updates. *)
Definition exec_g (r : regex) (s : string) (lastIndex : nat) : option rmatch * nat :=
  if String.length s <? lastIndex then (None, 0)
  else
    match search r (String.length s) lastIndex (drop_string lastIndex s) with
    | Some m => (Some m, index m + String.length (matched m))
    | None => (None, 0)
    end.

(** [s.split(r)] for a pattern without capture groups.  [acc] is the piece
    being collected, [skip] the number of characters of the current
    separator still to pass. *)
Fixpoint split_go (r : regex) (whole : nat) (s acc : string) (skip : nat) : list string :=
  match s with
  | EmptyString => [acc]
  | String c s' =>
      match skip with
      | S n => split_go r whole s' EmptyString n
      | 0 =>
          match match_here r whole 0 s with
          | None => split_go r whole s' (acc +:+ String c EmptyString) 0
          | Some m =>
              match String.length s - String.length (after m) with
              | 0 =>
                  match acc with
                  | EmptyString => split_go r whole s' (String c EmptyString) 0
                  | _ => acc :: split_go r whole s' (String c EmptyString) 0
                  end
              | S n => acc :: split_go r whole s' EmptyString n
              end
          end
      end
  end.

Definition split (r : regex) (s : string) : list string :=
  match s with
  | EmptyString =>
      match match_here r 0 0 s with
      | Some _ => []
      | None => [s]
      end
  | _ => split_go r (String.length s) s EmptyString 0
  end.

(** [s.replace(r, f)] for a pattern with the [g] flag and a replacer
    function that may not return ([None]).  An empty match does not stop the
    scan: the next character is copied and the search goes on after it. *)
Fixpoint replace_go (r : regex) (f : rmatch -> option string) (whole pos : nat)
    (s : string) (skip : nat) : option string :=
  match skip with
  | S n =>
      match s with
      | String _ s' => replace_go r f whole (S pos) s' n
      | EmptyString => Some EmptyString
      end
  | 0 =>
      match match_here r whole pos s with
      | Some m =>
          out ← f m;
          match s with
          | String c s' =>
              match String.length s - String.length (after m) with
              | 0 => tl ← replace_go r f whole (S pos) s' 0;
                     Some (out +:+ String c tl)
              | S n => tl ← replace_go r f whole (S pos) s' n;
                     Some (out +:+ tl)
              end
          | EmptyString => Some out
          end
      | None =>
          match s with
          | String c s' => tl ← replace_go r f whole (S pos) s' 0; Some (String c tl)
          | EmptyString => Some EmptyString
          end
      end
  end.

Definition replace_g (r : regex) (f : rmatch -> option string) (s : string) : option string :=
  replace_go r f (String.length s) 0 s 0.

End RegExp.

(** ** The text-event generator, [src/print/generate.js] *)

Module Events.
Import Js RegExp.

(** What [readDescriptions] yields. *)
Record descriptor : Type := Descriptor { key : value; fields : list value }.

(** What [readTextEvents] yields. *)
Record EventSpec : Type := Event {
  name : value;
  signal : value;
  fields_key : value;
  format : value;
  field_count_maybe : value
}.

Definition commentLines : nat := 18.

(** [/const\s+(\w+)\[]/] *)
Definition re_key : regex :=
  Then (Lit "const") (Then (Many true 1 Space)
    (Then (Group 1 (Many true 1 Word)) (Lit "[]"))).

(** [/N_\("(.+)"\)/] *)
Definition re_marked : regex :=
  Then (Lit ("N_(" +:+ QUOTE)) (Then (Group 1 (Many true 1 Any)) (Lit (QUOTE +:+ ")"))).

(** [/\s"(.+)"\s*$/] *)
Definition re_bare : regex :=
  Then (One Space) (Then (Lit QUOTE) (Then (Group 1 (Many true 1 Any))
    (Then (Lit QUOTE) (Then (Many true 0 Space) End_)))).

(** [(re_marked).exec(line) || (re_bare).exec(line)] *)
Definition field_match (line : string) : option rmatch :=
  match exec re_marked line with
  | Some m => Some m
  | None => exec re_bare line
  end.

(** The inner [while (!lines[i].startsWith('}'))] loop.  [rest] is the part
    of [lines] from index [i] on; the result is the collected fields and the
    lines from the closing one on. *)
Fixpoint fields_loop (rest : list string) (fields : list value)
    : result (list value * list string) :=
  match rest with
  | [] => Throw TypeError                     (* [lines[i]] is undefined *)
  | line :: rest' =>
      if startsWith line "}" then Ok (fields, rest)
      else
        match field_match line with
        | None => Throw TypeError             (* destructuring [null] *)
        | Some m => fields_loop rest' (fields ++ [slot m 1])
        end
  end.

(** [while (lines[i] === '') ++i;] *)
Fixpoint skip_blank (rest : list string) : list string :=
  match rest with
  | line :: rest' => if String.eqb line "" then skip_blank rest' else rest
  | [] => []
  end.

(** The outer [for (let i = 0; i < lines.length;)] loop. *)
Fixpoint blocks_loop (fuel : nat) (rest : list string) : option (gen descriptor) :=
  match fuel with
  | 0 => None
  | S fuel' =>
      match rest with
      | [] => Some (Gen [] None)
      | line :: rest1 =>
          match exec re_key line with
          | None => Some (Gen [] (Some TypeError))
          | Some m =>
              match fields_loop rest1 [] with
              | Throw e => Some (Gen [] (Some e))
              | Ok (fields, rest2) =>
                  gen_yield (Descriptor (slot m 1) fields)
                    <$> blocks_loop fuel' (skip_blank (drop 1 rest2))
              end
          end
      end
  end.

Definition readDescriptions (text_c : string) : option (gen descriptor) :=
  let lines := drop commentLines (split_char nl text_c) in
  blocks_loop (S (length lines)) lines.

(** [for (let i = 0; i < lines.length; i += 6)] *)
Fixpoint events_loop (fuel : nat) (lines : list string) (i : nat)
    : option (list EventSpec) :=
  match fuel with
  | 0 => None
  | S fuel' =>
      if i <? length lines then
        cons (Event (lines !! (i + 0)) (lines !! (i + 1)) (lines !! (i + 2))
                    (lines !! (i + 3)) (lines !! (i + 4)))
          <$> events_loop fuel' lines (i + 6)
      else Some []
  end.

Definition readTextEvents (textevents : string) : option (list EventSpec) :=
  let lines := split_char nl textevents in
  events_loop (S (length lines)) lines 0.

(** The [words.map] callback. *)
Definition capitalize (w : string) : result value :=
  match char0 w with
  | None => Throw TypeError                   (* [first.toUpperCase] on undefined *)
  | Some first =>
      let rest := slice1 w in
      Ok (Some (toUpperCase first +:+ toLowerCase rest))
  end.

Definition nameToCamelCase (spacedName : value) : result string :=
  match spacedName with
  | None => Throw TypeError
  | Some s =>
      let words := split (One NotWord) s in
      match map_result capitalize words with
      | Throw e => Throw e
      | Ok parts => Ok (join "" parts)
      end
  end.

(** The key that [generateRustLines] installs before reading [text.c]. *)
Definition none_help : string := "pevt_generic_none_help".

(** [field_descriptions[key] = fields] for every descriptor, in order. *)
Definition field_descriptions (ds : list descriptor) : gmap string (list value) :=
  foldl (fun fd d => <[to_string (key d) := fields d]> fd) {[none_help := []]} ds.

(** [(field, i) => `${i}: "${field}"`] *)
Definition pair_text (field : value) (i : nat) : value :=
  Some (show_nat i +:+ ": " +:+ QUOTE +:+ to_string field +:+ QUOTE).

(** The template literal of the second loop, for one event. *)
Definition event_line (fd : gmap string (list value)) (e : EventSpec) : result string :=
  match nameToCamelCase (name e) with
  | Throw x => Throw x
  | Ok ident =>
      match fd !! to_string (fields_key e) with
      | None => Throw TypeError               (* [.map] on undefined *)
      | Some fs =>
          Ok ("print_event!(" +:+ ident +:+ ", "
              +:+ QUOTE +:+ to_string (name e) +:+ QUOTE +:+ ", "
              +:+ QUOTE +:+ to_string (format e) +:+ QUOTE +:+ ", "
              +:+ join ", " (mapi pair_text fs) +:+ ");")
      end
  end.

Fixpoint emit_loop (fd : gmap string (list value)) (events : list EventSpec) : gen string :=
  match events with
  | [] => Gen [] None
  | e :: events' =>
      match event_line fd e with
      | Throw x => Gen [] (Some x)
      | Ok line => gen_yield line (emit_loop fd events')
      end
  end.

Definition generateRustLines (text_c textevents : string) : option (gen string) :=
  ds ← readDescriptions text_c;
  match raised ds with
  | Some x => Some (Gen [] (Some x))
  | None =>
      events ← readTextEvents textevents;
      Some (emit_loop (field_descriptions (yielded ds)) events)
  end.

(** [main]: what has been written to [events.rs] when the generator stops,
    and the exception that stopped it, if any. *)
Definition written (lines : list string) : string :=
  String.concat "" (map (fun line => line +:+ NL) lines).

Definition main (text_c textevents : string) : option (string * option exn) :=
  g ← generateRustLines text_c textevents;
  Some (written (yielded g), raised g).

End Events.

(** ** The preference generator *)

Module Prefs.
Import Js RegExp.

(** What [readPrefs] yields. *)
Record PrefSpec : Type := Pref { name : value; type : value }.

Definition prefixLines : nat := 2.

(** [/^\s/] *)
Definition re_indented : regex := Then Start (One Space).

(** [/{"(\w+)",[^,]+, (\w+)/] *)
Definition re_row : regex :=
  Then (Lit ("{" +:+ QUOTE)) (Then (Group 1 (Many true 1 Word))
    (Then (Lit (QUOTE +:+ ",")) (Then (Many true 1 (Except ","))
      (Then (Lit ", ") (Group 2 (Many true 1 Word)))))).

(** The zero row that closes the table. *)
Definition sentinel : string := "{0, 0, 0}".

(** [for (const line of lines)] *)
Fixpoint prefs_loop (lines : list string) : gen PrefSpec :=
  match lines with
  | [] => Gen [] None
  | line :: rest =>
      if String.eqb line "" then prefs_loop rest
      else if negb (test re_indented line) then prefs_loop rest
      else if includes line sentinel then prefs_loop rest
      else
        match exec re_row line with
        | None => Gen [] (Some TypeError)     (* destructuring [null] *)
        | Some m => gen_yield (Pref (slot m 1) (slot m 2)) (prefs_loop rest)
        end
  end.

Definition readPrefs (cfgfiles_c : string) : gen PrefSpec :=
  prefs_loop (drop prefixLines (split_char nl cfgfiles_c)).

(** The [words.map] callback. *)
Definition capitalize (w : string) : result value :=
  match char0 w with
  | None => Throw TypeError
  | Some first =>
      let rest := slice1 w in
      Ok (Some (toUpperCase first +:+ toLowerCase rest))
  end.

Definition nameToCamelCase (spacedName : value) : result string :=
  match spacedName with
  | None => Throw TypeError
  | Some s =>
      let words := split (One (Ch "_")) s in
      match map_result capitalize words with
      | Throw e => Throw e
      | Ok parts => Ok (join "" parts)
      end
  end.

(** The [switch] compares with [===]: undefined matches no case. *)
Definition typeToRust (type : value) : result string :=
  if decide (type = Some "TYPE_STR") then Ok "String"
  else if decide (type = Some "TYPE_INT") then Ok "i32"
  else if decide (type = Some "TYPE_BOOL") then Ok "bool"
  else Throw (Error ("Unsupported type: " +:+ to_string type)).

(** The template literal, for one preference. *)
Definition pref_line (p : PrefSpec) : result string :=
  match nameToCamelCase (name p) with
  | Throw x => Throw x
  | Ok ident =>
      match typeToRust (type p) with
      | Throw x => Throw x
      | Ok ty =>
          Ok ("pref!(" +:+ ident +:+ ", " +:+ QUOTE +:+ to_string (name p) +:+ QUOTE
              +:+ ", " +:+ ty +:+ ");")
      end
  end.

(** [for (const { name, type } of readPrefs())]: the reader is itself a
    generator, so the lines of the rows before a bad one are yielded before
    its exception arrives. *)
Fixpoint emit_loop (prefs : list PrefSpec) (stop : option exn) : gen string :=
  match prefs with
  | [] => Gen [] stop
  | p :: prefs' =>
      match pref_line p with
      | Throw x => Gen [] (Some x)
      | Ok line => gen_yield line (emit_loop prefs' stop)
      end
  end.

Definition generateRustLines (cfgfiles_c : string) : gen string :=
  let rows := readPrefs cfgfiles_c in
  emit_loop (yielded rows) (raised rows).

(** [main]: what has been written to [mod.rs] when the generator stops, and
    the exception that stopped it, if any. *)
Definition main (cfgfiles_c : string) : string * option exn :=
  let g := generateRustLines cfgfiles_c in
  (String.concat "" (map (fun line => line +:+ NL) (yielded g)), raised g).

End Prefs.

(** ** The handle generator *)

Module Handle.
Import Js RegExp.

(** [repeatWhile]: the callback is a closure over a pattern object, whose
    [lastIndex] is the state threaded through the calls. *)
Fixpoint repeatWhile {X St : Type} (fuel : nat) (callback : St -> option X * St)
    (st : St) : option (list X) :=
  match fuel with
  | 0 => None
  | S fuel' =>
      match callback st with
      | (Some x, st') => cons x <$> repeatWhile fuel' callback st'
      | (None, _) => Some []
      end
  end.

(** Every call that finds a match moves [lastIndex] forward or finds the
    same empty match for ever, so more than [length str + 1] calls that
    return a match mean the loop does not end. *)
Definition allMatches (str : string) (regex : regex) : option (list rmatch) :=
  repeatWhile (S (S (String.length str))) (exec_g regex str) 0.

(** [/unsafe fn (\w+)\((?:.|\n)+?\{/g] *)
Definition re_unsafe_fn : regex :=
  Then (Lit "unsafe fn ") (Then (Group 1 (Many true 1 Word))
    (Then (Lit "(") (Then (Many false 1 (Or Any (Ch nl))) (Lit "{")))).

(** [/(\n\s+?)\w+?:/g] *)
Definition re_depth : regex :=
  Then (Group 1 (Then (Lit NL) (Many false 1 Space)))
    (Then (Many false 1 Word) (Lit ":")).

(** [new RegExp(`${firstArgDepth}(\\w+):`, 'g')]: the indentation is a line
    feed and white space, or empty, so it stands for itself in the pattern. *)
Definition argRegex (firstArgDepth : value) : regex :=
  Then (Lit (to_string firstArgDepth)) (Then (Group 1 (Many true 1 Word)) (Lit ":")).

(** [/ph: \*mut hexchat_plugin,\n?/g] *)
Definition re_ph : regex :=
  Then (Lit "ph: *mut hexchat_plugin,") (Maybe (Ch nl)).

(** The generated body, up to the argument list. *)
Definition forward (name : value) (args : list value) : string :=
  "// Safety: forwarded to caller" +:+ NL
  +:+ TAB +:+ TAB +:+ TAB +:+ "unsafe { ((*self.handle.as_ptr())." +:+ to_string name
  +:+ ")(self.handle.as_ptr(), " +:+ join "," args +:+ ") }" +:+ NL
  +:+ TAB +:+ TAB.

(** The replacer function [(fullMatch, name) => ...]. *)
Definition rewrite (m : rmatch) : option string :=
  let fullMatch := matched m in
  let name := slot m 1 in
  let firstArgDepth :=
    match exec re_depth fullMatch with
    | Some d => slot d 1
    | None => Some ""
    end in
  found ← allMatches fullMatch (argRegex firstArgDepth);
  let args := drop 1 (map (fun a => slot a 1) found) in
  matchWithoutPhArg ← replace_g re_ph (fun _ => Some "") fullMatch;
  Some (matchWithoutPhArg +:+ forward name args).

(** [main]: the text written to [handle.rs]; [None] if a loop does not end. *)
Definition main (input : string) : option string :=
  replace_g re_unsafe_fn rewrite input.

End Handle.

(** ** The claim's reading of the event file, and of the identifier form

    These two definitions follow the wording of the specification, for
    comparison with the code. *)

Module Spec.
Import Js.

(** "Groups of exactly 5 lines, no blank separators": group [k] is made of
    the lines [5k .. 5k+4]. *)
Definition group_of_five (lines : list string) (k : nat) : Events.EventSpec :=
  Events.Event (lines !! (5 * k)) (lines !! (5 * k + 1)) (lines !! (5 * k + 2))
               (lines !! (5 * k + 3)) (lines !! (5 * k + 4)).

Definition groups_of_five (lines : list string) : list Events.EventSpec :=
  map (group_of_five lines) (seq 0 (length lines / 5)).

(** "Splitting on non-word characters": every non-word character closes the
    current token and opens the next one. *)
Fixpoint tokens (s : string) : list string :=
  match s with
  | EmptyString => [EmptyString]
  | String c s' =>
      if is_word c then
        match tokens s' with
        | w :: ws => String c w :: ws
        | [] => [String c EmptyString]
        end
      else EmptyString :: tokens s'
  end.

(** "First character upper-cased and the remainder lower-cased". *)
Definition title (w : string) : string :=
  match w with
  | EmptyString => EmptyString
  | String c rest => String (upper c) (toLowerCase rest)
  end.

(** "Concatenation, with no separator". *)
Definition title_case_identifier (name : string) : string :=
  String.concat "" (map title (tokens name)).

End Spec.

(** ** Notions used in the statements *)

Import Js RegExp.

(** The record that the loop builds at index [i]. *)
Definition event_at (lines : list string) (i : nat) : Events.EventSpec :=
  Events.Event (lines !! (i + 0)) (lines !! (i + 1)) (lines !! (i + 2))
               (lines !! (i + 3)) (lines !! (i + 4)).

(** The field that a line inside a block contributes, if it is not the
    closing line and one of the two patterns matches it. *)
Definition field_of (line : string) : option value :=
  if startsWith line "}" then None
  else
    match Events.field_match line with
    | Some fm => Some (slot fm 1)
    | None => None
    end.

(** The three shapes of a name that has an empty token. *)
Definition starts_with_nonword (name : string) : Prop :=
  exists c rest, name = String c rest /\ is_word c = false.

Definition ends_with_nonword (name : string) : Prop :=
  exists front c, name = front +:+ String c "" /\ is_word c = false.

Definition adjacent_nonwords (name : string) : Prop :=
  exists front c d rest,
    name = front +:+ String c (String d rest) /\ is_word c = false /\ is_word d = false.

(** The piece under construction is glued in front of the first token. *)
Definition glue (acc : string) (ws : list string) : list string :=
  match ws with
  | w :: ws' => (acc +:+ w) :: ws'
  | [] => [acc]
  end.

(** A string of word characters only. *)
Fixpoint all_word (s : string) : bool :=
  match s with
  | EmptyString => true
  | String c s' => is_word c && all_word s'
  end.

(** A file made of the given lines. *)
Definition unlines (lines : list string) : string := String.concat NL lines.

(** ** Sample inputs *)

(** Two events written as two groups of five lines, nothing in between. *)
Definition two_groups_of_five : string :=
  unlines ["Add Notify"; "XP_TE_ADDNOTIFY"; "pevt_generic_nick_help"; "$1 added"; "1";
           "Ban List"; "XP_TE_BANLIST"; "pevt_banlist_help"; "$1 Banlist"; "4"].

(** The same two events as [textevents.in] has them, one blank line between. *)
Definition two_groups_separated : string :=
  unlines ["Add Notify"; "XP_TE_ADDNOTIFY"; "pevt_generic_nick_help"; "$1 added"; "1"; "";
           "Ban List"; "XP_TE_BANLIST"; "pevt_banlist_help"; "$1 Banlist"; "4"].

(** A preference table: two prefix lines, one row, a comment and the zero
    row. *)
Definition prefs_with_comment : string :=
  unlines ["const struct prefs vars[] ="; "{";
           TAB +:+ "{" +:+ QUOTE +:+ "away_auto_unmark" +:+ QUOTE
             +:+ ", P_OFFINT (hex_away_auto_unmark), TYPE_BOOL},";
           TAB +:+ "/* dcc */";
           TAB +:+ "{" +:+ QUOTE +:+ "dcc_auto_chat" +:+ QUOTE
             +:+ ", P_OFFINT (hex_dcc_auto_chat), TYPE_BOOL},";
           TAB +:+ "{0, 0, 0},"; "};"; ""].

(** The head of [text.c]: the 17 lines of the licence comment, the blank
    line, and two blocks (the second has an unmarked literal). *)
Definition marked (label : string) : string :=
  TAB +:+ "N_(" +:+ QUOTE +:+ label +:+ QUOTE +:+ "),".

Definition whoisid_body : list string :=
  [marked "Nickname"; marked "Message"; TAB +:+ QUOTE +:+ "Numeric" +:+ QUOTE].

Definition text_c_sample : string :=
  unlines (replicate 17 " * licence" ++ [""]
           ++ ["static char * const pevt_whoisid_help[] = {"] ++ whoisid_body
           ++ ["};"; ""; "static char * const pevt_genmsg_help[] = {";
               marked "Left message"; marked "Right message"; "};"; ""]).

(** A preference table with the row of the specification's example. *)
Definition prefs_auto_reconnect : string :=
  unlines ["const struct prefs vars[] ="; "{";
           TAB +:+ "{" +:+ QUOTE +:+ "auto_reconnect" +:+ QUOTE +:+ ", 0, TYPE_BOOL, 0}";
           TAB +:+ "{0, 0, 0},"; "};"; ""].

(** The block of the specification's example, with the parameter named
    [handle], and the same block with the name [ph] that [handle_orig.rs]
    uses, on one line and one parameter per line. *)
Definition get_info_handle : string :=
  "unsafe fn get_info(handle: *mut hexchat_plugin, id: *const c_char) {".

Definition get_info_ph : string :=
  "unsafe fn get_info(ph: *mut hexchat_plugin, id: *const c_char) {".

Definition get_info_ph_lines : string :=
  unlines ["unsafe fn get_info(";
           "    ph: *mut hexchat_plugin,";
           "    id: *const c_char,";
           ") -> *const c_char {"].

(** Blocks with the handle as only parameter: one line, one parameter per
    line, and one line with a path in the return type. *)
Definition get_context : string :=
  "unsafe fn get_context(ph: *mut hexchat_plugin) -> *mut hexchat_context {".

Definition get_context_lines : string :=
  unlines ["unsafe fn get_context(";
           "    ph: *mut hexchat_plugin,";
           ") -> *mut hexchat_context {"].

Definition get_flags : string :=
  "unsafe fn get_flags(ph: *mut hexchat_plugin) -> ::std::os::raw::c_int {".

Definition get_flags_lines : string :=
  unlines ["unsafe fn get_flags(";
           "    ph: *mut hexchat_plugin,";
           ") -> ::std::os::raw::c_int {"].

(** ** Notions used in the further properties *)

(** Every character of the string satisfies the test. *)
Fixpoint all_chars (p : ascii -> bool) (s : string) : bool :=
  match s with
  | EmptyString => true
  | String c s' => p c && all_chars p s'
  end.

(** The string is empty or begins with a character that fails the test: a
    repetition of the test stops in front of it. *)
Definition stops (p : ascii -> bool) (s : string) : bool :=
  match s with
  | EmptyString => true
  | String c _ => negb (p c)
  end.

Definition not_nl (c : ascii) : bool := negb (Ascii.eqb c nl).

(** The pieces between the separator characters of a string. *)
Fixpoint pieces (sep : ascii -> bool) (s : string) : list string :=
  match s with
  | EmptyString => [EmptyString]
  | String c s' =>
      if sep c then EmptyString :: pieces sep s'
      else
        match pieces sep s' with
        | w :: ws => String c w :: ws
        | [] => [String c EmptyString]
        end
  end.

(** One block of [text.c] as the reader sees it: the declaration line and
    the key it declares, the body lines and the fields they contribute, the
    closing line and the number of blank lines after it. *)
Record block : Type := Block {
  b_declaration : string;
  b_key : value;
  b_body : list string;
  b_fields : list value;
  b_closing : string;
  b_blank : nat
}.

Definition block_lines (b : block) : list string :=
  b_declaration b :: b_body b ++ b_closing b :: replicate (b_blank b) "".

Definition block_descriptor (b : block) : Events.descriptor :=
  Events.Descriptor (b_key b) (b_fields b).

Definition well_formed (b : block) : Prop :=
  (exists m, exec Events.re_key (b_declaration b) = Some m /\ slot m 1 = b_key b)
  /\ Forall2 (fun line f => field_of line = Some f) (b_body b) (b_fields b)
  /\ startsWith (b_closing b) "}" = true.

(** The list is empty or begins with a line that is not blank. *)
Definition head_not_blank (rest : list string) : Prop :=
  match rest with
  | line :: _ => line <> ""
  | [] => True
  end.

(** What the readers hand on is never undefined: a key is a non-empty string
    of word characters, a field a non-empty string without line
    terminators. *)
Definition word_value (v : value) : Prop :=
  exists w, v = Some w /\ w <> "" /\ all_chars is_word w = true.

Definition text_value (v : value) : Prop :=
  exists w, v = Some w /\ w <> "" /\ all_chars is_dot w = true.

(** The two blocks of [text_c_sample]. *)
Definition sample_blocks : list block :=
  [Block "static char * const pevt_whoisid_help[] = {" (Some "pevt_whoisid_help")
     whoisid_body [Some "Nickname"; Some "Message"; Some "Numeric"] "};" 1;
   Block "static char * const pevt_genmsg_help[] = {" (Some "pevt_genmsg_help")
     [marked "Left message"; marked "Right message"]
     [Some "Left message"; Some "Right message"] "};" 1].

(** A preference row: indentation, name, the field between the name and the
    type, the type, and what follows the type. *)
Definition row_line (indent name mid type rest : string) : string :=
  indent +:+ "{" +:+ QUOTE +:+ name +:+ QUOTE +:+ "," +:+ mid +:+ ", " +:+ type +:+ rest.

(** A table with a row after the zero row, and the same table without the
    zero row. *)
Definition prefs_row_after_zero : string :=
  unlines ["const struct prefs vars[] ="; "{";
           row_line TAB "away_auto_unmark" " P_OFFINT (hex_away_auto_unmark)" "TYPE_BOOL" "},";
           TAB +:+ "{0, 0, 0},";
           row_line TAB "away_reason" " P_OFFSET (hex_away_reason)" "TYPE_STR" "},";
           "};"; ""].

Definition prefs_without_zero : string :=
  unlines ["const struct prefs vars[] ="; "{";
           row_line TAB "away_auto_unmark" " P_OFFINT (hex_away_auto_unmark)" "TYPE_BOOL" "},";
           row_line TAB "away_reason" " P_OFFSET (hex_away_reason)" "TYPE_STR" "},";
           "};"; ""].

(** The characters of the identifier of a preference: word characters but
    the underscore. *)
Definition is_ident_char (c : ascii) : bool := is_word c && negb (mem (Ch "_") c).



(** A block with one parameter per line, as the rewriter reads it: what
    stands before the first parameter line, then for every parameter a line
    feed, the indentation, the name, a colon and the rest of the line, then
    a line feed and what closes the block. *)
Definition param_line (depth : string) (p : string * string) : string :=
  depth +:+ fst p +:+ ":" +:+ snd p.

Definition param_lines (depth : string) (params : list (string * string)) (tail : string)
    : string :=
  fold_right (fun p text => param_line depth p +:+ text) tail params.

Definition layout (head indent : string) (params : list (string * string)) (close : string)
    : string :=
  head +:+ param_lines (NL +:+ indent) params (NL +:+ close).

Definition well_laid_out (p : string * string) : Prop :=
  fst p <> "" /\ all_chars is_word (fst p) = true /\ all_chars not_nl (snd p) = true.

(** The usual shape of an array of [text.c]: the declaration line of a key,
    one marked literal per label, the closing line and blank lines. *)
Record array_decl : Type := Array {
  a_key : string;
  a_labels : list string;
  a_blank : nat
}.

Definition declaration_line (key : string) : string :=
  "static char * const " +:+ key +:+ "[] = {".

Definition array_block (a : array_decl) : block :=
  Block (declaration_line (a_key a)) (Some (a_key a))
        (map marked (a_labels a)) (map Some (a_labels a)) "};" (a_blank a).

Definition array_ok (a : array_decl) : Prop :=
  a_key a <> "" /\ all_chars is_word (a_key a) = true
  /\ Forall (fun label => label <> "" /\ all_chars is_dot label = true) (a_labels a).

(** The two arrays of [text_c_sample], had the last literal of the first
    been marked like the others. *)
Definition sample_arrays : list array_decl :=
  [Array "pevt_join_help" ["The nick of the joining person"; "The channel being joined"] 1;
   Array "pevt_capreq_help" ["Requested Capabilities"] 2;
   Array "pevt_empty_help" [] 0].

(** Three events, the second with a key that [text_c_sample] does not
    declare, and three preference rows, the second with a type that is not
    supported. *)
Definition three_events : list Events.EventSpec :=
  [Events.Event (Some "WhoIs Identified") (Some "XP_TE_WHOIS_ID") (Some "pevt_whoisid_help")
     (Some "$1 $2") (Some "3");
   Events.Event (Some "Ban List") (Some "XP_TE_BANLIST") (Some "pevt_banlist_help")
     (Some "$1 Banlist") (Some "4");
   Events.Event (Some "Generic Message") (Some "XP_TE_GENMSG") (Some "pevt_genmsg_help")
     (Some "$1$t$2") (Some "2")].

Definition three_prefs : list Prefs.PrefSpec :=
  [Prefs.Pref (Some "away_auto_unmark") (Some "TYPE_BOOL");
   Prefs.Pref (Some "away_size_max") (Some "TYPE_FLOAT");
   Prefs.Pref (Some "away_reason") (Some "TYPE_STR")].

(** A value that prints without line feed. *)
Definition one_line (v : value) : Prop := all_chars not_nl (to_string v) = true.

(** A line the preference reader passes over. *)
Definition skippable (line : string) : Prop :=
  line = "" \/ test Prefs.re_indented line = false \/ includes line Prefs.sentinel = true.

(** The matches of a list lie one after the other in the text, from a
    position on. *)
Fixpoint in_text_order (from : nat) (ms : list rmatch) : Prop :=
  match ms with
  | [] => True
  | m :: ms' =>
      from <= index m /\ in_text_order (index m + String.length (matched m)) ms'
  end.

(** A line of the preference table as the reader takes it: a row, or a line
    it passes over. *)
Inductive table_line : Type :=
| Row (indent name mid type rest : string)
| Passed (line : string).

Definition table_text (l : table_line) : string :=
  match l with
  | Row indent name mid type rest => row_line indent name mid type rest
  | Passed line => line
  end.

Definition table_prefs (l : table_line) : list Prefs.PrefSpec :=
  match l with
  | Row _ name _ type _ => [Prefs.Pref (Some name) (Some type)]
  | Passed _ => []
  end.

Definition table_ok (l : table_line) : Prop :=
  match l with
  | Row indent name mid type rest =>
      (indent <> "" /\ all_chars is_space indent = true)
      /\ (name <> "" /\ all_chars is_word name = true)
      /\ (mid <> "" /\ all_chars (mem (Except ",")) mid = true)
      /\ (type <> "" /\ all_chars is_word type = true)
      /\ stops is_word rest = true
      /\ includes (row_line indent name mid type rest) Prefs.sentinel = false
  | Passed line => skippable line
  end.

(** The lines of [prefs_row_after_zero] after its two prefix lines. *)
Definition sample_table : list table_line :=
  [Row TAB "away_auto_unmark" " P_OFFINT (hex_away_auto_unmark)" "TYPE_BOOL" "},";
   Passed (TAB +:+ "{0, 0, 0},");
   Row TAB "away_reason" " P_OFFSET (hex_away_reason)" "TYPE_STR" "},";
   Passed "};"; Passed ""].

(** * Properties *)

(** ** Strings *)

Lemma append_empty_r (s : string) : s +:+ "" = s.
Proof. induction s as [|c s IH]; simpl; [reflexivity | now rewrite IH]. Qed.

Lemma append_assoc (a b c : string) : (a +:+ b) +:+ c = a +:+ (b +:+ c).
Proof. induction a as [|x a IH]; simpl; [reflexivity | now rewrite IH]. Qed.

Lemma append_snoc_cons (a : string) (c : ascii) (b : string) :
  (a +:+ String c "") +:+ b = a +:+ String c b.
Proof. now rewrite append_assoc. Qed.

(** ** Splitting on a character class *)

(** At a character of the class the pattern [One cs] matches exactly that
    character; elsewhere it does not match. *)
Lemma match_here_One_after cs whole pos c s :
  mem cs c = true ->
  exists m, match_here (One cs) whole pos (String c s) = Some m /\ after m = s.
Proof.
  intros Hc. unfold match_here. simpl. rewrite Hc. eexists. split; reflexivity.
Qed.

Lemma match_here_One_none cs whole pos c s :
  mem cs c = false -> match_here (One cs) whole pos (String c s) = None.
Proof. intros Hc. unfold match_here. simpl. now rewrite Hc. Qed.

Lemma split_go_One_step cs whole c s acc :
  split_go (One cs) whole (String c s) acc 0 =
  if mem cs c then acc :: split_go (One cs) whole s "" 0
  else split_go (One cs) whole s (acc +:+ String c "") 0.
Proof.
  destruct (mem cs c) eqn:Hc.
  - destruct (match_here_One_after cs whole 0 c s Hc) as (m & Hm & Ha).
    cbn [split_go]. rewrite Hm, Ha. cbn [String.length].
    replace (S (String.length s) - String.length s) with 1 by lia.
    reflexivity.
  - cbn [split_go]. now rewrite match_here_One_none.
Qed.

Lemma tokens_nonempty s : Spec.tokens s <> [].
Proof.
  destruct s as [|c s]; simpl; [discriminate |].
  destruct (is_word c); [destruct (Spec.tokens s) |]; discriminate.
Qed.

Lemma split_go_NotWord whole s acc :
  split_go (One NotWord) whole s acc 0 = glue acc (Spec.tokens s).
Proof.
  revert acc. induction s as [|c s IH]; intros acc.
  - simpl. now rewrite append_empty_r.
  - rewrite split_go_One_step. cbn [mem Spec.tokens].
    destruct (is_word c) eqn:Hw; cbn [negb].
    + rewrite IH. pose proof (tokens_nonempty s) as Hne.
      destruct (Spec.tokens s) as [|w ws]; [congruence |].
      simpl. now rewrite append_snoc_cons.
    + rewrite IH. pose proof (tokens_nonempty s) as Hne.
      destruct (Spec.tokens s) as [|w ws]; [congruence |].
      cbn [glue]. now rewrite append_empty_r.
Qed.

Lemma split_NotWord s : split (One NotWord) s = Spec.tokens s.
Proof.
  destruct s as [|c s]; [reflexivity |].
  unfold split. rewrite split_go_NotWord.
  pose proof (tokens_nonempty (String c s)) as Hne.
  destruct (Spec.tokens (String c s)); [congruence | reflexivity].
Qed.

(** The tokens hold word characters only, so the case mappings are only
    ever applied to characters on which they are exact. *)
Lemma tokens_all_word s : Forall (fun w => all_word w = true) (Spec.tokens s).
Proof.
  induction s as [|c s IH]; cbn [Spec.tokens]; [repeat constructor |].
  destruct (is_word c) eqn:Hc; [| now constructor].
  destruct (Spec.tokens s) as [|w ws]; [repeat constructor; cbn; now rewrite Hc |].
  inversion IH as [|? ? Hw Hws]; subst.
  constructor; [cbn [all_word]; now rewrite Hc, Hw | assumption].
Qed.

(** ** Name conversion in the event generator *)

Lemma capitalize_nonempty c rest :
  Events.capitalize (String c rest) = Ok (Some (Spec.title (String c rest))).
Proof. reflexivity. Qed.

Lemma map_capitalize_ok ws :
  Forall (fun w => w <> "") ws ->
  map_result Events.capitalize ws = Ok (map (fun w => Some (Spec.title w)) ws).
Proof.
  induction 1 as [|w ws Hw _ IH]; [reflexivity |].
  destruct w as [|c rest]; [congruence |].
  cbn [map_result]. rewrite capitalize_nonempty, IH. reflexivity.
Qed.

Lemma map_capitalize_throw ws :
  In "" ws -> map_result Events.capitalize ws = Throw TypeError.
Proof.
  induction ws as [|w ws IH]; intros Hin; [destruct Hin |].
  destruct w as [|c rest]; [reflexivity |].
  destruct Hin as [Heq | Hin]; [discriminate |].
  cbn [map_result]. rewrite capitalize_nonempty, (IH Hin). reflexivity.
Qed.

Lemma join_titles ws :
  join "" (map (fun w => Some (Spec.title w)) ws) = String.concat "" (map Spec.title ws).
Proof.
  induction ws as [|w ws IH]; [reflexivity |].
  destruct ws as [|w' ws]; [reflexivity |].
  change (Spec.title w +:+ "" +:+ join "" (map (fun w => Some (Spec.title w)) (w' :: ws))
          = Spec.title w +:+ "" +:+ String.concat "" (map Spec.title (w' :: ws))).
  now rewrite IH.
Qed.

Lemma empty_token_dec ws : In "" ws \/ Forall (fun w : string => w <> "") ws.
Proof.
  induction ws as [|w ws [IH | IH]].
  - right. constructor.
  - left. now right.
  - destruct w as [|c rest].
    + left. now left.
    + right. constructor; [discriminate | assumption].
Qed.

Lemma nameToCamelCase_ok name :
  Forall (fun w => w <> "") (Spec.tokens name) ->
  Events.nameToCamelCase (Some name) = Ok (Spec.title_case_identifier name).
Proof.
  intros Hne. unfold Events.nameToCamelCase, Spec.title_case_identifier.
  rewrite split_NotWord, (map_capitalize_ok _ Hne), join_titles. reflexivity.
Qed.

Lemma nameToCamelCase_throw name :
  In "" (Spec.tokens name) -> Events.nameToCamelCase (Some name) = Throw TypeError.
Proof.
  intros Hin. unfold Events.nameToCamelCase.
  rewrite split_NotWord, (map_capitalize_throw _ Hin). reflexivity.
Qed.

(** The only exception the conversion raises is a [TypeError]. *)
Lemma nameToCamelCase_exn v x : Events.nameToCamelCase v = Throw x -> x = TypeError.
Proof.
  destruct v as [name|]; [| now intros [= <-]].
  destruct (empty_token_dec (Spec.tokens name)) as [Hin | Hne].
  - rewrite (nameToCamelCase_throw _ Hin). now intros [= <-].
  - rewrite (nameToCamelCase_ok _ Hne). discriminate.
Qed.

(** *** Where empty tokens come from *)

Lemma tokens_tail_app front t :
  In "" (tail (Spec.tokens t)) -> In "" (tail (Spec.tokens (front +:+ t))).
Proof.
  intros Ht. induction front as [|x front IH]; [exact Ht |].
  cbn [String.append Spec.tokens]. destruct (is_word x).
  - pose proof (tokens_nonempty (front +:+ t)) as Hne.
    destruct (Spec.tokens (front +:+ t)); [congruence | exact IH].
  - cbn [tail]. destruct (Spec.tokens (front +:+ t)); [destruct IH | now right].
Qed.

Lemma tail_In {A} (x : A) (l : list A) : In x (tail l) -> In x l.
Proof. destruct l; [intros [] | now right]. Qed.

Lemma starts_with_nonword_token name : starts_with_nonword name -> In "" (Spec.tokens name).
Proof. intros (c & rest & -> & Hc). cbn [Spec.tokens]. rewrite Hc. now left. Qed.

Lemma ends_with_nonword_token name : ends_with_nonword name -> In "" (Spec.tokens name).
Proof.
  intros (front & c & -> & Hc). apply tail_In, tokens_tail_app.
  cbn [Spec.tokens]. rewrite Hc. now left.
Qed.

Lemma adjacent_nonwords_token name : adjacent_nonwords name -> In "" (Spec.tokens name).
Proof.
  intros (front & c & d & rest & -> & Hc & Hd). apply tail_In, tokens_tail_app.
  cbn [Spec.tokens]. rewrite Hc, Hd. now left.
Qed.

(** ** The emit loop of the event generator *)

Lemma events_emit_app fd before rest :
  Events.emit_loop fd (before ++ rest) =
  match raised (Events.emit_loop fd before) with
  | Some x => Events.emit_loop fd before
  | None => Gen (yielded (Events.emit_loop fd before) ++ yielded (Events.emit_loop fd rest))
                (raised (Events.emit_loop fd rest))
  end.
Proof.
  induction before as [|e before IH]; cbn [app Events.emit_loop].
  - now destruct (Events.emit_loop fd rest).
  - destruct (Events.event_line fd e); [| reflexivity].
    rewrite IH. cbn [gen_yield raised yielded].
    destruct (raised (Events.emit_loop fd before)); reflexivity.
Qed.

(** An event whose line cannot be built adds nothing to the output, and the
    generator ends with an exception. *)
Lemma events_emit_stops fd before e after x :
  Events.event_line fd e = Throw x ->
  yielded (Events.emit_loop fd (before ++ e :: after)) = yielded (Events.emit_loop fd before)
  /\ raised (Events.emit_loop fd (before ++ e :: after)) <> None.
Proof.
  intros He. rewrite events_emit_app. cbn [Events.emit_loop]. rewrite He.
  destruct (raised (Events.emit_loop fd before)) eqn:Hr.
  - split; [reflexivity | now rewrite Hr].
  - cbn [yielded raised]. split; [apply app_nil_r | discriminate].
Qed.

(** ** The event reader *)

(** With enough fuel the loop ends; it has then built one record for every
    index [i], [i + 6], [i + 12], ... below the number of lines. *)
Lemma events_loop_spec fuel lines i :
  i < length lines + 6 ->
  length lines + 6 <= i + 6 * fuel ->
  exists evs,
    Events.events_loop fuel lines i = Some evs
    /\ length lines <= i + 6 * length evs
    /\ i + 6 * length evs < length lines + 6
    /\ forall k, i + 6 * k < length lines -> evs !! k = Some (event_at lines (i + 6 * k)).
Proof.
  revert i. induction fuel as [|fuel IH]; intros i Hi6 Hfuel; [lia |].
  cbn [Events.events_loop]. destruct (Nat.ltb_spec i (length lines)) as [Hi | Hi].
  - destruct (IH (i + 6)) as (evs & -> & Hlo & Hhi & Hnth); [lia | lia |].
    eexists. split; [reflexivity |]. cbn [length].
    split; [lia |]. split; [lia |].
    intros [|k] Hk.
    + replace (i + 6 * 0) with i by lia. reflexivity.
    + replace (i + 6 * S k) with (i + 6 + 6 * k) by lia.
      apply (Hnth k). lia.
  - exists []. split; [reflexivity |]. cbn [length].
    split; [lia |]. split; [lia |]. intros k Hk. lia.
Qed.

(** The reader always ends: the fuel it is given is enough. *)
Lemma readTextEvents_total textevents : is_Some (Events.readTextEvents textevents).
Proof.
  unfold Events.readTextEvents.
  destruct (events_loop_spec (S (length (split_char nl textevents)))
              (split_char nl textevents) 0) as (evs & -> & _); [lia | lia | eauto].
Qed.

(** ** The preference reader and its emit loop *)

Lemma prefs_loop_app before rest :
  Prefs.prefs_loop (before ++ rest) =
  match raised (Prefs.prefs_loop before) with
  | Some x => Prefs.prefs_loop before
  | None => Gen (yielded (Prefs.prefs_loop before) ++ yielded (Prefs.prefs_loop rest))
                (raised (Prefs.prefs_loop rest))
  end.
Proof.
  induction before as [|line before IH]; cbn [app Prefs.prefs_loop].
  - now destruct (Prefs.prefs_loop rest).
  - destruct (String.eqb line ""); [exact IH |].
    destruct (test Prefs.re_indented line); cbn [negb]; [| exact IH].
    destruct (includes line Prefs.sentinel); [exact IH |].
    destruct (exec Prefs.re_row line); [| reflexivity].
    rewrite IH. cbn [gen_yield raised yielded].
    destruct (raised (Prefs.prefs_loop before)); reflexivity.
Qed.

(** A row that survives the three filters and does not match the row pattern
    stops the reader. *)
Lemma prefs_loop_mismatch line rest :
  line <> "" ->
  test Prefs.re_indented line = true ->
  includes line Prefs.sentinel = false ->
  exec Prefs.re_row line = None ->
  Prefs.prefs_loop (line :: rest) = Gen [] (Some TypeError).
Proof.
  intros Hne Hind Hsen Hrow. cbn [Prefs.prefs_loop].
  apply String.eqb_neq in Hne. now rewrite Hne, Hind, Hsen, Hrow.
Qed.

(** The emit loop never swallows the reader's exception. *)
Lemma prefs_emit_raised prefs x : raised (Prefs.emit_loop prefs (Some x)) <> None.
Proof.
  induction prefs as [|p prefs IH]; cbn [Prefs.emit_loop]; [discriminate |].
  destruct (Prefs.pref_line p); [exact IH | discriminate].
Qed.

Lemma prefs_emit_yielded prefs stop :
  yielded (Prefs.emit_loop prefs stop) = yielded (Prefs.emit_loop prefs None).
Proof.
  induction prefs as [|p prefs IH]; cbn [Prefs.emit_loop]; [reflexivity |].
  destruct (Prefs.pref_line p); [| reflexivity].
  cbn [gen_yield yielded]. now rewrite IH.
Qed.

(** ** The descriptor table *)

Lemma field_descriptions_absent_from (ds : list Events.descriptor)
    (init : gmap string (list value)) (k : string) :
  (forall d, In d ds -> to_string (Events.key d) <> k) ->
  foldl (fun fd d => <[to_string (Events.key d) := Events.fields d]> fd) init ds !! k
  = init !! k.
Proof.
  revert init. induction ds as [|d ds IH]; intros init Hds; [reflexivity |].
  cbn [foldl]. rewrite IH by (intros d' Hd'; apply Hds; now right).
  apply lookup_insert_ne, Hds. now left.
Qed.

Lemma field_descriptions_absent (ds : list Events.descriptor) (k : string) :
  (forall d, In d ds -> to_string (Events.key d) <> k) ->
  Events.field_descriptions ds !! k = if decide (k = Events.none_help) then Some [] else None.
Proof.
  intros Hds. unfold Events.field_descriptions.
  rewrite field_descriptions_absent_from by assumption.
  case_decide as Hk.
  - subst k. apply lookup_singleton_eq.
  - apply lookup_singleton_ne. congruence.
Qed.

(** The last descriptor with a given key is the one the table keeps. *)
Lemma field_descriptions_last (ds after : list Events.descriptor) (d : Events.descriptor) :
  (forall d', In d' after -> to_string (Events.key d') <> to_string (Events.key d)) ->
  Events.field_descriptions (ds ++ d :: after) !! to_string (Events.key d)
  = Some (Events.fields d).
Proof.
  intros Hafter. unfold Events.field_descriptions.
  rewrite foldl_app. cbn [foldl].
  rewrite field_descriptions_absent_from by assumption.
  apply lookup_insert_eq.
Qed.

(** ** The descriptor reader *)

Lemma fields_loop_body body fs acc closing rest :
  Forall2 (fun line f => field_of line = Some f) body fs ->
  startsWith closing "}" = true ->
  Events.fields_loop (body ++ closing :: rest) acc = Ok (acc ++ fs, closing :: rest).
Proof.
  intros Hbody Hclose. revert acc.
  induction Hbody as [|line f body fs Hline _ IH]; intros acc.
  - cbn [app Events.fields_loop]. rewrite Hclose. now rewrite app_nil_r.
  - cbn [app Events.fields_loop]. unfold field_of in Hline.
    destruct (startsWith line "}"); [discriminate |].
    destruct (Events.field_match line) as [fm|]; [| discriminate].
    injection Hline as <-. rewrite IH. now rewrite <- app_assoc.
Qed.

(** The inner loop stops on a line of the block, never past the end. *)
Lemma fields_loop_rest rest acc fs rest2 :
  Events.fields_loop rest acc = Ok (fs, rest2) ->
  0 < length rest2 /\ length rest2 <= length rest.
Proof.
  revert acc. induction rest as [|line rest IH]; intros acc; cbn [Events.fields_loop].
  - discriminate.
  - destruct (startsWith line "}").
    + intros [= <- <-]. cbn [length]. lia.
    + destruct (Events.field_match line); [| discriminate].
      intros H. apply IH in H. cbn [length]. lia.
Qed.

Lemma skip_blank_length rest : length (Events.skip_blank rest) <= length rest.
Proof.
  induction rest as [|line rest IH]; cbn [Events.skip_blank]; [lia |].
  destruct (String.eqb line ""); cbn [length]; lia.
Qed.

(** The outer loop consumes at least one line per block, so a fuel above the
    number of lines is never used up. *)
Lemma blocks_loop_total fuel rest :
  length rest < fuel -> is_Some (Events.blocks_loop fuel rest).
Proof.
  revert rest. induction fuel as [|fuel IH]; intros rest Hfuel; [lia |].
  cbn [Events.blocks_loop]. destruct rest as [|line rest1]; [eauto |].
  destruct (exec Events.re_key line); [| eauto].
  destruct (Events.fields_loop rest1 []) as [[fs rest2]|] eqn:Hfields; [| eauto].
  apply fmap_is_Some, IH. apply fields_loop_rest in Hfields.
  pose proof (skip_blank_length (drop 1 rest2)) as Hskip.
  rewrite length_drop in Hskip. cbn [length] in Hfuel. lia.
Qed.

Lemma readDescriptions_total text_c : is_Some (Events.readDescriptions text_c).
Proof. unfold Events.readDescriptions. apply blocks_loop_total. lia. Qed.

(** The event generator always ends. *)
Lemma events_generateRustLines_total text_c textevents :
  is_Some (Events.generateRustLines text_c textevents).
Proof.
  unfold Events.generateRustLines.
  destruct (readDescriptions_total text_c) as [ds ->]. cbn [mbind option_bind].
  destruct (raised ds); [eauto |].
  destruct (readTextEvents_total textevents) as [evs ->]. cbn. eauto.
Qed.

(** ** Indexed mapping *)

Lemma mapi_from_lookup {A B} (f : A -> nat -> B) (i0 : nat) (l : list A) (i : nat) (x : A) :
  l !! i = Some x -> mapi_from f i0 l !! i = Some (f x (i0 + i)).
Proof.
  revert i0 i. induction l as [|y l IH]; intros i0 [|i] Hx; try discriminate.
  - injection Hx as ->. cbn. now rewrite Nat.add_0_r.
  - cbn [mapi_from]. replace (i0 + S i) with (S i0 + i) by lia.
    apply (IH (S i0) i). exact Hx.
Qed.

Lemma mapi_from_length {A B} (f : A -> nat -> B) (i0 : nat) (l : list A) :
  length (mapi_from f i0 l) = length l.
Proof. revert i0. induction l as [|y l IH]; intros i0; cbn; [reflexivity | now rewrite IH]. Qed.

(** ** The matcher consumes input

    Whatever a pattern matches is a prefix of the text it is run on; its
    continuation is called on the rest, which is shorter by at least the
    least length of the pattern, and the capture array keeps its size. *)

Lemma strip_prefix_length p s s' :
  strip_prefix p s = Some s' -> String.length s' + String.length p = String.length s.
Proof.
  revert s. induction p as [|a p IH]; intros [|b s]; cbn [strip_prefix String.length];
    try discriminate.
  - now intros [= <-].
  - intros [= <-]. cbn [String.length]. lia.
  - destruct (Ascii.eqb a b); [| discriminate]. intros H. apply IH in H. lia.
Qed.

Lemma exactly_inv {A} n p s (k : string -> option A) x :
  exactly n p s k = Some x ->
  exists s', k s' = Some x /\ String.length s' + n = String.length s.
Proof.
  revert s. induction n as [|n IH]; intros s; cbn [exactly].
  - intros H. exists s. split; [exact H | lia].
  - destruct s as [|c s]; [discriminate |]. destruct (p c); [| discriminate].
    intros H. destruct (IH _ H) as (s' & Hk & Hlen).
    exists s'. split; [exact Hk |]. cbn [String.length]. lia.
Qed.

Lemma many_greedy_inv {A} p s (k : string -> option A) x :
  many_greedy p s k = Some x ->
  exists s', k s' = Some x /\ String.length s' <= String.length s.
Proof.
  induction s as [|c s IH]; cbn [many_greedy].
  - intros H. now exists "".
  - destruct (p c); [| intros H; now exists (String c s)].
    destruct (many_greedy p s k) as [y|] eqn:Hrec.
    + intros [= <-]. destruct (IH eq_refl) as (s' & Hk & Hlen).
      exists s'. split; [exact Hk |]. cbn [String.length]. lia.
    + intros H. now exists (String c s).
Qed.

Lemma many_lazy_inv {A} p s (k : string -> option A) x :
  many_lazy p s k = Some x ->
  exists s', k s' = Some x /\ String.length s' <= String.length s.
Proof.
  induction s as [|c s IH]; cbn [many_lazy].
  - destruct (k "") as [y|] eqn:Hk; [| discriminate].
    intros [= <-]. now exists "".
  - destruct (k (String c s)) as [y|] eqn:Hk.
    + intros [= <-]. now exists (String c s).
    + destruct (p c); [| discriminate]. intros H.
      destruct (IH H) as (s' & Hk' & Hlen).
      exists s'. split; [exact Hk' |]. cbn [String.length]. lia.
Qed.

Lemma run_inv {A} r whole s caps (k : string -> list value -> option A) x :
  run r whole s caps k = Some x ->
  exists s' caps',
    k s' caps' = Some x
    /\ String.length s' + least r <= String.length s
    /\ length caps' = length caps.
Proof.
  revert s caps k. induction r as [l|cs|g n cs|cs|i r IH|r1 IH1 r2 IH2| |];
    intros s caps k; cbn [run least].
  - destruct (strip_prefix l s) as [s'|] eqn:Hl; [| discriminate].
    intros H. exists s', caps. apply strip_prefix_length in Hl.
    split; [exact H |]. split; [lia | reflexivity].
  - destruct s as [|c s]; [discriminate |]. destruct (mem cs c); [| discriminate].
    intros H. exists s, caps. cbn [String.length]. split; [exact H |]. split; [lia | reflexivity].
  - intros H. apply exactly_inv in H as (s1 & H & Hlen1).
    assert (exists s2, k s2 caps = Some x /\ String.length s2 <= String.length s1)
      as (s2 & Hk & Hlen2).
    { destruct g; [apply many_greedy_inv in H | apply many_lazy_inv in H]; exact H. }
    exists s2, caps. split; [exact Hk |]. split; [lia | reflexivity].
  - assert (Hstay : k s caps = Some x ->
                    exists s' caps', k s' caps' = Some x
                      /\ String.length s' + 0 <= String.length s
                      /\ length caps' = length caps).
    { intros H. exists s, caps. split; [exact H |]. split; [lia | reflexivity]. }
    destruct s as [|c s]; [exact Hstay |].
    destruct (mem cs c); [| exact Hstay].
    destruct (k s caps) as [y|] eqn:Hk; [| exact Hstay].
    intros [= <-]. exists s, caps. cbn [String.length].
    split; [exact Hk |]. split; [lia | reflexivity].
  - intros H. apply IH in H as (s' & caps' & Hk & Hlen & Hcaps).
    eexists s', _. split; [exact Hk |]. split; [exact Hlen |].
    now rewrite length_insert.
  - intros H. apply IH1 in H as (s1 & caps1 & H & Hlen1 & Hcaps1).
    apply IH2 in H as (s2 & caps2 & Hk & Hlen2 & Hcaps2).
    exists s2, caps2. split; [exact Hk |]. split; [lia | congruence].
  - destruct (String.length s =? whole); [| discriminate].
    intros H. exists s, caps. split; [exact H |]. split; [lia | reflexivity].
  - destruct s; [| discriminate].
    intros H. exists "", caps. split; [exact H |]. split; [lia | reflexivity].
Qed.

Lemma substring_length n s :
  n <= String.length s -> String.length (substring 0 n s) = n.
Proof.
  revert s. induction n as [|n IH]; intros [|c s] Hn;
    cbn [substring String.length] in *; try lia; try reflexivity.
  f_equal. apply IH. lia.
Qed.

Lemma slots_pos r : 0 < slots r.
Proof. induction r; cbn [slots]; lia. Qed.

(** A match found at a position starts there and is at least as long as the
    least length of the pattern. *)
Lemma match_here_inv r whole pos s m :
  match_here r whole pos s = Some m ->
  index m = pos
  /\ String.length (matched m) + String.length (after m) = String.length s
  /\ least r <= String.length (matched m).
Proof.
  unfold match_here. intros H. apply run_inv in H as (s' & caps' & H & Hlen & Hcaps).
  injection H as <-. rewrite length_replicate in Hcaps.
  pose proof (slots_pos r) as Hpos.
  unfold matched, slot. cbn [index arr after].
  rewrite list_lookup_insert_eq by lia. cbn [mjoin option_join to_string].
  rewrite substring_length by lia. split; [reflexivity |]. lia.
Qed.

Lemma search_inv r whole pos s m :
  search r whole pos s = Some m ->
  pos <= index m
  /\ index m + String.length (matched m) <= pos + String.length s
  /\ least r <= String.length (matched m).
Proof.
  revert pos. induction s as [|c s IH]; intros pos; cbn [search].
  - destruct (match_here r whole pos "") as [m'|] eqn:Hm; [| discriminate].
    intros [= <-]. apply match_here_inv in Hm as (-> & Hlen & Hleast). lia.
  - destruct (match_here r whole pos (String c s)) as [m'|] eqn:Hm.
    + intros [= <-]. apply match_here_inv in Hm as (-> & Hlen & Hleast). lia.
    + intros H. apply IH in H. cbn [String.length]. lia.
Qed.

Lemma drop_string_length n s :
  n <= String.length s -> n + String.length (drop_string n s) = String.length s.
Proof.
  revert s. induction n as [|n IH]; intros [|c s] Hn; cbn in *; try lia.
  specialize (IH s). lia.
Qed.

(** A global [exec] that finds a match moves [lastIndex] forward by at least
    the least length of the pattern, and not past the end of the text. *)
Lemma exec_g_inv r str lastIndex m lastIndex' :
  exec_g r str lastIndex = (Some m, lastIndex') ->
  lastIndex + least r <= lastIndex' /\ lastIndex' <= String.length str.
Proof.
  unfold exec_g. destruct (Nat.ltb_spec (String.length str) lastIndex) as [Hlt | Hle];
    [discriminate |].
  destruct (search r (String.length str) lastIndex (drop_string lastIndex str)) as [m'|] eqn:Hs;
    [| discriminate].
  intros [= <- <-]. apply search_inv in Hs.
  pose proof (drop_string_length lastIndex str Hle). lia.
Qed.

(** [repeatWhile] around a global [exec] ends when the pattern cannot match
    the empty string. *)
Lemma repeatWhile_exec_total r str fuel lastIndex :
  0 < least r ->
  String.length str <= lastIndex + fuel ->
  is_Some (Handle.repeatWhile (S fuel) (exec_g r str) lastIndex).
Proof.
  intros Hleast. revert lastIndex. induction fuel as [|fuel IH]; intros lastIndex Hfuel.
  - cbn [Handle.repeatWhile].
    destruct (exec_g r str lastIndex) as [[m|] lastIndex'] eqn:Hexec; [| eauto].
    apply exec_g_inv in Hexec. lia.
  - change (is_Some match exec_g r str lastIndex with
                    | (Some x, st') => cons x <$> Handle.repeatWhile (S fuel) (exec_g r str) st'
                    | (None, _) => Some []
                    end).
    destruct (exec_g r str lastIndex) as [[m|] lastIndex'] eqn:Hexec; [| eauto].
    apply exec_g_inv in Hexec. apply fmap_is_Some, IH. lia.
Qed.

Lemma allMatches_total str depth : is_Some (Handle.allMatches str (Handle.argRegex depth)).
Proof.
  unfold Handle.allMatches. apply repeatWhile_exec_total; [| lia].
  cbn [Handle.argRegex least String.length]. lia.
Qed.

Lemma replace_go_total r f whole pos s skip :
  (forall m, is_Some (f m)) -> is_Some (replace_go r f whole pos s skip).
Proof.
  intros Hf. revert pos skip. induction s as [|c s IH]; intros pos skip.
  - destruct skip; cbn [replace_go]; [| eauto].
    destruct (match_here r whole pos "") as [m|]; [| eauto].
    destruct (Hf m) as [out ->]. cbn. eauto.
  - destruct skip as [|n]; cbn [replace_go]; [| apply IH].
    destruct (match_here r whole pos (String c s)) as [m|].
    + destruct (Hf m) as [out ->]. cbn [mbind option_bind].
      destruct (String.length (String c s) - String.length (after m)) as [|n].
      * destruct (IH (S pos) 0) as [tl ->]. cbn. eauto.
      * destruct (IH (S pos) n) as [tl ->]. cbn. eauto.
    + destruct (IH (S pos) 0) as [tl ->]. cbn. eauto.
Qed.

(** The replacer function always returns, and so does [main]. *)
Lemma rewrite_total m : is_Some (Handle.rewrite m).
Proof.
  unfold Handle.rewrite.
  destruct (allMatches_total (matched m)
              match exec Handle.re_depth (matched m) with
              | Some d => slot d 1
              | None => Some ""
              end) as [found ->].
  cbn [mbind option_bind].
  destruct (replace_go_total Handle.re_ph (fun _ => Some "")
              (String.length (matched m)) 0 (matched m) 0) as [without Hw]; [eauto |].
  unfold replace_g. rewrite Hw. cbn. eauto.
Qed.

(** The rewriter ends on every input: the argument pattern takes at least
    one character, so every [exec] of the loop moves [lastIndex] forward, and
    [main] returns a text. *)
Theorem main_total input : is_Some (Handle.main input).
Proof. apply replace_go_total, rewrite_total. Qed.

(** * The claims *)

(** ** C1: the stride of the event reader *)

(** C1, as stated, fails: on a file of two five-line groups with no line
    between them, the reader does not produce the two groups of five; its
    second record starts at line 6, so it takes the signal of the second
    group for a name and leaves line 5 out. *)
Lemma C1_groups_of_five_counterexample :
  Events.readTextEvents two_groups_of_five
  = Some [Events.Event (Some "Add Notify") (Some "XP_TE_ADDNOTIFY")
            (Some "pevt_generic_nick_help") (Some "$1 added") (Some "1");
          Events.Event (Some "XP_TE_BANLIST") (Some "pevt_banlist_help")
            (Some "$1 Banlist") (Some "4") None]
  /\ Events.readTextEvents two_groups_of_five
     <> Some (Spec.groups_of_five (split_char nl two_groups_of_five)).
Proof. split; [reflexivity | vm_compute; discriminate]. Qed.

(** C1, amended: the reader produces one EventSpec per stride of 6 lines.
    For every group [k] that starts inside the file, the lines [6k .. 6k+4]
    supply name, signal, fields_key, format and field_count_maybe (a line
    past the end reads as undefined), the line [6k+5] belongs to no group,
    and there are as many records as strides: the number of lines divided by
    6, rounded up. *)
Theorem C1_readTextEvents_stride_six (textevents : string) (k : nat) :
  6 * k < length (split_char nl textevents) ->
  exists evs,
    Events.readTextEvents textevents = Some evs
    /\ length evs = (length (split_char nl textevents) + 5) / 6
    /\ evs !! k =
       Some (Events.Event (split_char nl textevents !! (6 * k + 0))
                          (split_char nl textevents !! (6 * k + 1))
                          (split_char nl textevents !! (6 * k + 2))
                          (split_char nl textevents !! (6 * k + 3))
                          (split_char nl textevents !! (6 * k + 4))).
Proof.
  intros Hk. unfold Events.readTextEvents.
  set (lines := split_char nl textevents) in *.
  destruct (events_loop_spec (S (length lines)) lines 0) as (evs & Hrun & Hlo & Hhi & Hnth);
    [lia | lia |].
  exists evs. split; [exact Hrun |]. split.
  - apply Nat.div_unique with (r := length lines + 5 - 6 * length evs); lia.
  - apply (Hnth k). lia.
Qed.

Lemma C1_readTextEvents_stride_six_witness :
  6 * 1 < length (split_char nl two_groups_separated)
  /\ exists evs,
       Events.readTextEvents two_groups_separated = Some evs
       /\ length evs = 2
       /\ evs !! 1 = Some (Events.Event (Some "Ban List") (Some "XP_TE_BANLIST")
                             (Some "pevt_banlist_help") (Some "$1 Banlist") (Some "4")).
Proof.
  split; [vm_compute; lia |].
  exact (C1_readTextEvents_stride_six two_groups_separated 1 ltac:(vm_compute; lia)).
Defined.

(** ** C6 and C10: event names *)

(** C6: the pattern [\W] cuts the name at every non-word character, so the
    tokens are made of word characters; when the conversion returns, the identifier is the concatenation of the tokens,
    each with its first character upper-cased and the rest lower-cased; it
    returns whenever no token is empty; that identifier is what the emitted
    line starts with; and "Channel Message" gives "ChannelMessage". *)
Theorem C6_identifier_is_title_case (name : string) :
  split (One NotWord) name = Spec.tokens name
  /\ Forall (fun w => all_word w = true) (Spec.tokens name)
  /\ (forall ident, Events.nameToCamelCase (Some name) = Ok ident ->
        ident = Spec.title_case_identifier name)
  /\ (Forall (fun w => w <> "") (Spec.tokens name) ->
        Events.nameToCamelCase (Some name) = Ok (Spec.title_case_identifier name))
  /\ (forall fd e line,
        Events.name e = Some name -> Events.event_line fd e = Ok line ->
        exists rest, line = "print_event!(" +:+ Spec.title_case_identifier name +:+ rest)
  /\ Events.nameToCamelCase (Some "Channel Message") = Ok "ChannelMessage".
Proof.
  assert (Hinv : forall ident, Events.nameToCamelCase (Some name) = Ok ident ->
                   ident = Spec.title_case_identifier name).
  { intros ident. destruct (empty_token_dec (Spec.tokens name)) as [Hin | Hne].
    - rewrite (nameToCamelCase_throw _ Hin). discriminate.
    - rewrite (nameToCamelCase_ok _ Hne). now intros [= <-]. }
  split; [apply split_NotWord |]. split; [apply tokens_all_word |]. split; [exact Hinv |].
  split; [apply nameToCamelCase_ok |]. split; [| reflexivity].
  intros fd e line Hname. unfold Events.event_line. rewrite Hname.
  destruct (Events.nameToCamelCase (Some name)) as [ident|] eqn:Hid; [| discriminate].
  rewrite (Hinv ident eq_refl).
  destruct (fd !! to_string (Events.fields_key e)); [| discriminate].
  intros [= <-]. eexists. reflexivity.
Qed.

Lemma C6_identifier_is_title_case_witness :
  Forall (fun w => w <> "") (Spec.tokens "Channel Message")
  /\ Events.nameToCamelCase (Some "Channel Message")
     = Ok (Spec.title_case_identifier "Channel Message").
Proof.
  assert (H : Forall (fun w : string => w <> "") (Spec.tokens "Channel Message")).
  { repeat constructor; discriminate. }
  split; [exact H |].
  exact (proj1 (proj2 (proj2 (proj2 (C6_identifier_is_title_case "Channel Message")))) H).
Defined.

(** C10: a name with an empty token (it starts or ends with a non-word
    character, or has two non-word characters in a row) makes
    [nameToCamelCase] throw a TypeError; the line of that event is not
    built, the generator yields nothing for it and ends with an exception. *)
Theorem C10_empty_token_throws (name : string) :
  In "" (split (One NotWord) name)
  \/ starts_with_nonword name \/ ends_with_nonword name \/ adjacent_nonwords name ->
  Events.nameToCamelCase (Some name) = Throw TypeError
  /\ forall fd e before after,
       Events.name e = Some name ->
       Events.event_line fd e = Throw TypeError
       /\ yielded (Events.emit_loop fd (before ++ e :: after))
          = yielded (Events.emit_loop fd before)
       /\ raised (Events.emit_loop fd (before ++ e :: after)) <> None.
Proof.
  intros Hshape.
  assert (Hin : In "" (Spec.tokens name)).
  { destruct Hshape as [H | [H | [H | H]]].
    - now rewrite <- split_NotWord.
    - now apply starts_with_nonword_token.
    - now apply ends_with_nonword_token.
    - now apply adjacent_nonwords_token. }
  pose proof (nameToCamelCase_throw name Hin) as Hthrow.
  split; [exact Hthrow |].
  intros fd e before after Hname.
  assert (Hline : Events.event_line fd e = Throw TypeError).
  { unfold Events.event_line. now rewrite Hname, Hthrow. }
  split; [exact Hline |]. exact (events_emit_stops fd before e after _ Hline).
Qed.

Lemma C10_empty_token_throws_witness :
  (In "" (split (One NotWord) "Channel  Message")
   \/ starts_with_nonword "Channel  Message" \/ ends_with_nonword "Channel  Message"
   \/ adjacent_nonwords "Channel  Message")
  /\ Events.nameToCamelCase (Some "Channel  Message") = Throw TypeError.
Proof.
  assert (H : In "" (split (One NotWord) "Channel  Message")).
  { vm_compute. right. now left. }
  split; [now left |].
  exact (proj1 (C10_empty_token_throws "Channel  Message" (or_introl H))).
Defined.

(** ** C4: resolving the descriptor key *)

(** C4: when no descriptor read from [text.c] has the key of an event, the
    lookup decides.  For any key but [pevt_generic_none_help] the line of the
    event raises a TypeError, the generator yields nothing for that event and
    ends with an exception.  The key [pevt_generic_none_help] is installed
    before [text.c] is read and resolves to the empty list: an event with a
    convertible name gets a line with no [index: "label"] pair. *)
Theorem C4_unresolved_key_is_fatal (ds : list Events.descriptor) (e : Events.EventSpec)
    (before after : list Events.EventSpec) :
  (forall d, In d ds -> to_string (Events.key d) <> to_string (Events.fields_key e)) ->
  (to_string (Events.fields_key e) <> Events.none_help ->
     Events.event_line (Events.field_descriptions ds) e = Throw TypeError
     /\ yielded (Events.emit_loop (Events.field_descriptions ds) (before ++ e :: after))
        = yielded (Events.emit_loop (Events.field_descriptions ds) before)
     /\ raised (Events.emit_loop (Events.field_descriptions ds) (before ++ e :: after))
        <> None)
  /\ (to_string (Events.fields_key e) = Events.none_help ->
      Events.field_descriptions ds !! Events.none_help = Some []
      /\ forall ident,
           Events.nameToCamelCase (Events.name e) = Ok ident ->
           Events.event_line (Events.field_descriptions ds) e
           = Ok ("print_event!(" +:+ ident +:+ ", "
                 +:+ QUOTE +:+ to_string (Events.name e) +:+ QUOTE +:+ ", "
                 +:+ QUOTE +:+ to_string (Events.format e) +:+ QUOTE +:+ ", " +:+ ");")).
Proof.
  intros Hds. pose proof (field_descriptions_absent ds _ Hds) as Hlook. split.
  - intros Hkey. rewrite decide_False in Hlook by exact Hkey.
    assert (Hline : Events.event_line (Events.field_descriptions ds) e = Throw TypeError).
    { unfold Events.event_line. rewrite Hlook.
      destruct (Events.nameToCamelCase (Events.name e)) eqn:Hname; [reflexivity |].
      now rewrite (nameToCamelCase_exn _ _ Hname). }
    split; [exact Hline |]. exact (events_emit_stops _ before e after _ Hline).
  - intros Hkey. rewrite decide_True in Hlook by exact Hkey.
    split; [now rewrite <- Hkey |].
    intros ident Hname. unfold Events.event_line. now rewrite Hname, Hlook.
Qed.

Lemma C4_unresolved_key_is_fatal_witness :
  let ds := [Events.Descriptor (Some "pevt_join_help") [Some "The nick"; Some "The channel"]] in
  let e := Events.Event (Some "Ban List") (Some "XP_TE_BANLIST") (Some "pevt_banlist_help")
             (Some "$1 Banlist") (Some "4") in
  (forall d, In d ds -> to_string (Events.key d) <> to_string (Events.fields_key e))
  /\ to_string (Events.fields_key e) <> Events.none_help
  /\ Events.event_line (Events.field_descriptions ds) e = Throw TypeError.
Proof.
  intros ds e.
  assert (Hds : forall d, In d ds -> to_string (Events.key d) <> to_string (Events.fields_key e)).
  { intros d [<- | []]. discriminate. }
  assert (Hkey : to_string (Events.fields_key e) <> Events.none_help) by discriminate.
  split; [exact Hds |]. split; [exact Hkey |].
  exact (proj1 (proj1 (C4_unresolved_key_is_fatal ds e [] [] Hds) Hkey)).
Defined.

(** ** C5: the type switch of the preference generator *)

(** C5: [typeToRust] takes TYPE_STR to String, TYPE_INT to i32 and TYPE_BOOL
    to bool; for any other type it throws the "Unsupported type" error, and
    the row is not skipped: the generator yields no line for it, or for any
    later row, and ends with an exception, which is that error whenever the
    name of the row converts. *)
Theorem C5_typeToRust_closed (t : value) :
  t <> Some "TYPE_STR" -> t <> Some "TYPE_INT" -> t <> Some "TYPE_BOOL" ->
  Prefs.typeToRust (Some "TYPE_STR") = Ok "String"
  /\ Prefs.typeToRust (Some "TYPE_INT") = Ok "i32"
  /\ Prefs.typeToRust (Some "TYPE_BOOL") = Ok "bool"
  /\ Prefs.typeToRust t = Throw (Error ("Unsupported type: " +:+ to_string t))
  /\ forall name rest stop,
       yielded (Prefs.emit_loop (Prefs.Pref name t :: rest) stop) = []
       /\ raised (Prefs.emit_loop (Prefs.Pref name t :: rest) stop) <> None
       /\ forall ident,
            Prefs.nameToCamelCase name = Ok ident ->
            Prefs.emit_loop (Prefs.Pref name t :: rest) stop
            = Gen [] (Some (Error ("Unsupported type: " +:+ to_string t))).
Proof.
  intros Hstr Hint Hbool.
  assert (Ht : Prefs.typeToRust t = Throw (Error ("Unsupported type: " +:+ to_string t))).
  { unfold Prefs.typeToRust. now rewrite !decide_False by assumption. }
  repeat (split; [reflexivity |]). split; [exact Ht |].
  intros name rest stop. cbn [Prefs.emit_loop]. unfold Prefs.pref_line.
  cbn [Prefs.name Prefs.type]. rewrite Ht.
  destruct (Prefs.nameToCamelCase name) as [ident|x].
  - cbn [yielded raised]. split; [reflexivity |]. split; [discriminate | reflexivity].
  - cbn [yielded raised]. split; [reflexivity |]. split; discriminate.
Qed.

Lemma C5_typeToRust_closed_witness :
  Some "TYPE_FLOAT" <> Some "TYPE_STR" /\ Some "TYPE_FLOAT" <> Some "TYPE_INT"
  /\ Some "TYPE_FLOAT" <> Some "TYPE_BOOL"
  /\ Prefs.typeToRust (Some "TYPE_FLOAT") = Throw (Error "Unsupported type: TYPE_FLOAT").
Proof.
  assert (H1 : Some "TYPE_FLOAT" <> Some "TYPE_STR") by discriminate.
  assert (H2 : Some "TYPE_FLOAT" <> Some "TYPE_INT") by discriminate.
  assert (H3 : Some "TYPE_FLOAT" <> Some "TYPE_BOOL") by discriminate.
  repeat (split; [assumption |]).
  exact (proj1 (proj2 (proj2 (proj2 (C5_typeToRust_closed (Some "TYPE_FLOAT") H1 H2 H3))))).
Defined.

(** ** C3: rows that the row pattern does not match *)

(** C3, as stated, fails: the comment line of this table is not empty, is
    indented, is not the zero row and does not match the row pattern; the
    generator yields the line of the row before it and then ends with a
    TypeError, and the row after the comment gets no line. *)
Lemma C3_mismatch_is_not_skipped_counterexample :
  (TAB +:+ "/* dcc */" <> ""
   /\ test Prefs.re_indented (TAB +:+ "/* dcc */") = true
   /\ includes (TAB +:+ "/* dcc */") Prefs.sentinel = false
   /\ exec Prefs.re_row (TAB +:+ "/* dcc */") = None)
  /\ Prefs.generateRustLines prefs_with_comment
     = Gen ["pref!(AwayAutoUnmark, " +:+ QUOTE +:+ "away_auto_unmark" +:+ QUOTE +:+ ", bool);"]
           (Some TypeError).
Proof. split; [repeat split; discriminate || reflexivity | reflexivity]. Qed.

(** C3, amended: a line that is not empty, begins with white space, does not
    contain the zero row and does not match the row pattern stops the
    reader with a TypeError when the reader reaches it.  No PrefSpec and no
    output line is produced for it or for any line after it; what was yielded
    for the lines before it stays, and the generator ends with an
    exception. *)
Theorem C3_mismatched_row_is_fatal (cfgfiles_c : string) (before after : list string)
    (line : string) :
  drop Prefs.prefixLines (split_char nl cfgfiles_c) = before ++ line :: after ->
  raised (Prefs.prefs_loop before) = None ->
  line <> "" ->
  test Prefs.re_indented line = true ->
  includes line Prefs.sentinel = false ->
  exec Prefs.re_row line = None ->
  Prefs.readPrefs cfgfiles_c = Gen (yielded (Prefs.prefs_loop before)) (Some TypeError)
  /\ yielded (Prefs.generateRustLines cfgfiles_c)
     = yielded (Prefs.emit_loop (yielded (Prefs.prefs_loop before)) None)
  /\ raised (Prefs.generateRustLines cfgfiles_c) <> None.
Proof.
  intros Hfile Hbefore Hne Hind Hsen Hrow.
  assert (Hread : Prefs.readPrefs cfgfiles_c
                  = Gen (yielded (Prefs.prefs_loop before)) (Some TypeError)).
  { unfold Prefs.readPrefs. rewrite Hfile, prefs_loop_app, Hbefore.
    rewrite (prefs_loop_mismatch line after Hne Hind Hsen Hrow).
    cbn [yielded raised]. now rewrite app_nil_r. }
  split; [exact Hread |]. unfold Prefs.generateRustLines. rewrite Hread.
  cbn [yielded raised]. split; [apply prefs_emit_yielded | apply prefs_emit_raised].
Qed.

Lemma C3_mismatched_row_is_fatal_witness :
  Prefs.readPrefs prefs_with_comment
  = Gen [Prefs.Pref (Some "away_auto_unmark") (Some "TYPE_BOOL")] (Some TypeError)
  /\ yielded (Prefs.generateRustLines prefs_with_comment)
     = ["pref!(AwayAutoUnmark, " +:+ QUOTE +:+ "away_auto_unmark" +:+ QUOTE +:+ ", bool);"]
  /\ raised (Prefs.generateRustLines prefs_with_comment) <> None.
Proof.
  exact (C3_mismatched_row_is_fatal prefs_with_comment
           [TAB +:+ "{" +:+ QUOTE +:+ "away_auto_unmark" +:+ QUOTE
              +:+ ", P_OFFINT (hex_away_auto_unmark), TYPE_BOOL},"]
           [TAB +:+ "{" +:+ QUOTE +:+ "dcc_auto_chat" +:+ QUOTE
              +:+ ", P_OFFINT (hex_dcc_auto_chat), TYPE_BOOL},";
            TAB +:+ "{0, 0, 0},"; "};"; ""]
           (TAB +:+ "/* dcc */")
           eq_refl eq_refl ltac:(discriminate) eq_refl eq_refl eq_refl).
Defined.

(** ** C7: field order and field index *)

(** C7: a block made of a declaration line, body lines that each contribute
    a field, and a closing line yields one descriptor whose fields are the
    fields of the body lines in the order of the lines, wherever the block
    stands in the file; if it opens the file, it is the first descriptor
    read.  The emitted line gives each field of the resolved descriptor its
    position, from 0: the [i]-th pair is [i: "label"] for the [i]-th field. *)
Theorem C7_fields_keep_declaration_order (text_c declaration closing : string)
    (m : rmatch) (body : list string) (fs : list value) (rest : list string) :
  exec Events.re_key declaration = Some m ->
  Forall2 (fun line f => field_of line = Some f) body fs ->
  startsWith closing "}" = true ->
  (forall fuel,
     Events.blocks_loop (S fuel) (declaration :: body ++ closing :: rest)
     = gen_yield (Events.Descriptor (slot m 1) fs)
         <$> Events.blocks_loop fuel (Events.skip_blank rest))
  /\ (drop Events.commentLines (split_char nl text_c)
        = declaration :: body ++ closing :: rest ->
      exists g, Events.readDescriptions text_c = Some g
                /\ head (yielded g) = Some (Events.Descriptor (slot m 1) fs))
  /\ length (mapi Events.pair_text fs) = length fs
  /\ (forall i f, fs !! i = Some f ->
        mapi Events.pair_text fs !! i
        = Some (Some (show_nat i +:+ ": " +:+ QUOTE +:+ to_string f +:+ QUOTE)))
  /\ (forall fd e ident,
        Events.nameToCamelCase (Events.name e) = Ok ident ->
        fd !! to_string (Events.fields_key e) = Some fs ->
        Events.event_line fd e
        = Ok ("print_event!(" +:+ ident +:+ ", "
              +:+ QUOTE +:+ to_string (Events.name e) +:+ QUOTE +:+ ", "
              +:+ QUOTE +:+ to_string (Events.format e) +:+ QUOTE +:+ ", "
              +:+ join ", " (mapi Events.pair_text fs) +:+ ");")).
Proof.
  intros Hdecl Hbody Hclose.
  assert (Hstep : forall fuel,
            Events.blocks_loop (S fuel) (declaration :: body ++ closing :: rest)
            = gen_yield (Events.Descriptor (slot m 1) fs)
                <$> Events.blocks_loop fuel (Events.skip_blank rest)).
  { intros fuel. cbn [Events.blocks_loop]. rewrite Hdecl.
    rewrite (fields_loop_body body fs [] closing rest Hbody Hclose). reflexivity. }
  split; [exact Hstep |]. split.
  - intros Hfile. unfold Events.readDescriptions. rewrite Hfile, Hstep.
    destruct (blocks_loop_total
                (length (declaration :: body ++ closing :: rest))
                (Events.skip_blank rest)) as [g Hg].
    { pose proof (skip_blank_length rest). cbn [length]. rewrite length_app. cbn [length]. lia. }
    rewrite Hg. eexists. split; reflexivity.
  - split; [apply mapi_from_length |]. split.
    + intros i f Hf. unfold mapi. now rewrite (mapi_from_lookup _ 0 fs i f Hf).
    + intros fd e ident Hname Hfs. unfold Events.event_line. now rewrite Hname, Hfs.
Qed.

Lemma C7_fields_keep_declaration_order_witness :
  exists g,
    Events.readDescriptions text_c_sample = Some g
    /\ head (yielded g)
       = Some (Events.Descriptor (Some "pevt_whoisid_help")
                 [Some "Nickname"; Some "Message"; Some "Numeric"]).
Proof.
  assert (Hdecl : exec Events.re_key "static char * const pevt_whoisid_help[] = {"
                  = Some (Match 14 [Some "const pevt_whoisid_help[]"; Some "pevt_whoisid_help"]
                            " = {")) by reflexivity.
  assert (Hbody : Forall2 (fun line f => field_of line = Some f) whoisid_body
                    [Some "Nickname"; Some "Message"; Some "Numeric"]).
  { repeat constructor. }
  exact (proj1 (proj2 (C7_fields_keep_declaration_order text_c_sample _ "};" _ _ _
                         ["";  "static char * const pevt_genmsg_help[] = {";
                          marked "Left message"; marked "Right message"; "};"; ""]
                         Hdecl Hbody eq_refl)) eq_refl).
Defined.

(** ** C8: the row of the example *)

(** C8: the indented line [{"auto_reconnect", 0, TYPE_BOOL, 0}] yields the
    PrefSpec with name auto_reconnect and type TYPE_BOOL, and the generator
    emits for it one line, which has the identifier AutoReconnect and the
    type bool. *)
Theorem C8_auto_reconnect_row :
  Prefs.readPrefs prefs_auto_reconnect
  = Gen [Prefs.Pref (Some "auto_reconnect") (Some "TYPE_BOOL")] None
  /\ Prefs.nameToCamelCase (Some "auto_reconnect") = Ok "AutoReconnect"
  /\ Prefs.typeToRust (Some "TYPE_BOOL") = Ok "bool"
  /\ Prefs.generateRustLines prefs_auto_reconnect
     = Gen ["pref!(AutoReconnect, " +:+ QUOTE +:+ "auto_reconnect" +:+ QUOTE +:+ ", bool);"]
           None
  /\ Forall (fun line => includes line "AutoReconnect" = true
                         /\ includes line "bool" = true)
       (yielded (Prefs.generateRustLines prefs_auto_reconnect)).
Proof. repeat split; try (vm_compute; reflexivity). repeat constructor. Qed.

(** ** C2 and C9: the forwarding wrapper *)

(** The body appended for [get_info] with the one argument [id]. *)
Lemma forward_get_info :
  Handle.forward (Some "get_info") [Some "id"]
  = "// Safety: forwarded to caller" +:+ NL +:+ TAB +:+ TAB +:+ TAB
    +:+ "unsafe { ((*self.handle.as_ptr()).get_info)(self.handle.as_ptr(), id) }"
    +:+ NL +:+ TAB +:+ TAB.
Proof. reflexivity. Qed.

(** C2, as stated, fails: for the block with the parameter named [handle]
    the declaration is emitted as it was read, and the output still has the
    handle parameter. *)
Lemma C2_handle_parameter_stays_counterexample :
  Handle.main get_info_handle
  = Some (get_info_handle +:+ Handle.forward (Some "get_info") [Some "id"])
  /\ includes (get_info_handle +:+ Handle.forward (Some "get_info") [Some "id"])
       "handle: *mut hexchat_plugin" = true.
Proof. split; vm_compute; reflexivity. Qed.

(** C2, amended: for the block with the handle parameter spelled
    [ph: *mut hexchat_plugin,], the rewriter removes that text (and the line
    feed after it, when the parameters are one per line) from the
    declaration and appends the call of the [get_info] field behind the
    handle, with [self.handle.as_ptr()] first and [id] after it.  For the block with
    the parameter named [handle] the same call is appended and the
    declaration is left as it was. *)
Theorem C2_get_info_forwarding :
  Handle.main get_info_ph
  = Some ("unsafe fn get_info( id: *const c_char) {"
          +:+ Handle.forward (Some "get_info") [Some "id"])
  /\ Handle.main get_info_ph_lines
     = Some (unlines ["unsafe fn get_info(";
                      "        id: *const c_char,";
                      ") -> *const c_char {"]
             +:+ Handle.forward (Some "get_info") [Some "id"])
  /\ Handle.main get_info_handle
     = Some (get_info_handle +:+ Handle.forward (Some "get_info") [Some "id"])
  /\ includes (Handle.forward (Some "get_info") [Some "id"])
       "((*self.handle.as_ptr()).get_info)(self.handle.as_ptr(), id)" = true.
Proof. repeat split; vm_compute; reflexivity. Qed.

(** What the replacer appends when the argument pattern finds at most one
    name in the block: the call with the handle pointer alone. *)
Lemma rewrite_single_name (m : rmatch) (depth : value) (found : list rmatch)
    (without : string) :
  depth = match exec Handle.re_depth (matched m) with
          | Some d => slot d 1
          | None => Some ""
          end ->
  Handle.allMatches (matched m) (Handle.argRegex depth) = Some found ->
  length found <= 1 ->
  replace_g Handle.re_ph (fun _ => Some "") (matched m) = Some without ->
  Handle.rewrite m = Some (without +:+ Handle.forward (slot m 1) []).
Proof.
  intros -> Hfound Hlen Hwithout. unfold Handle.rewrite.
  rewrite Hfound. cbn [mbind option_bind]. rewrite Hwithout. cbn [mbind option_bind].
  destruct found as [|a [|b found]]; [reflexivity | reflexivity | cbn in Hlen; lia].
Qed.

(** Handle-only blocks get the call with the handle pointer as only
    argument when they have no further [name:] text, and also when they have
    some but are written one parameter per line: the indentation in front of
    the pattern keeps it from matching inside the return type. *)
Lemma handle_only_blocks :
  Handle.main get_context = Some (get_context +:+ Handle.forward (Some "get_context") [])
  /\ Handle.main get_context_lines
     = Some (unlines ["unsafe fn get_context("; "    ) -> *mut hexchat_context {"]
             +:+ Handle.forward (Some "get_context") [])
  /\ Handle.main get_flags_lines
     = Some (unlines ["unsafe fn get_flags("; "    ) -> ::std::os::raw::c_int {"]
             +:+ Handle.forward (Some "get_flags") [])
  /\ includes (Handle.forward (Some "get_context") []) "(self.handle.as_ptr(), )" = true.
Proof. repeat split; vm_compute; reflexivity. Qed.

(** C9, at the failing input: a handle-only block on one line whose return
    type is a path.  No line matches the indentation pattern, the argument
    pattern is then [(\w+):], it also finds the segments of the path, and
    the call passes them after the handle pointer. *)
Theorem C9_handle_only_path_return :
  exec Handle.re_depth get_flags = None
  /\ Handle.main get_flags
     = Some (get_flags
             +:+ Handle.forward (Some "get_flags") [Some "std"; Some "os"; Some "raw"])
  /\ includes (Handle.forward (Some "get_flags") [Some "std"; Some "os"; Some "raw"])
       "(self.handle.as_ptr(), std,os,raw)" = true.
Proof. repeat split; vm_compute; reflexivity. Qed.

(** * Further properties *)

(** ** Strings, once more *)

Lemma all_word_all_chars s : all_word s = all_chars is_word s.
Proof. induction s as [|c s IH]; cbn; [reflexivity | now rewrite IH]. Qed.

Lemma all_chars_append p a b :
  all_chars p (a +:+ b) = all_chars p a && all_chars p b.
Proof.
  induction a as [|c a IH]; cbn [String.append all_chars]; [reflexivity |].
  rewrite IH. now rewrite andb_assoc.
Qed.

Lemma all_chars_impl (p q : ascii -> bool) s :
  (forall c, p c = true -> q c = true) -> all_chars p s = true -> all_chars q s = true.
Proof.
  intros Hpq. induction s as [|c s IH]; cbn [all_chars]; [reflexivity |].
  intros [Hc Hs]%andb_true_iff. rewrite (Hpq c Hc), (IH Hs). reflexivity.
Qed.

Lemma substring_whole_prefix w rest :
  substring 0 (String.length (w +:+ rest) - String.length rest) (w +:+ rest) = w.
Proof.
  induction w as [|c w IH].
  - cbn [String.append]. rewrite Nat.sub_diag. now destruct rest.
  - cbn [String.append String.length].
    assert (Hlen : String.length rest <= String.length (w +:+ rest)).
    { clear. induction w as [|c w IH]; cbn [String.append String.length]; lia. }
    replace (S (String.length (w +:+ rest)) - String.length rest)
      with (S (String.length (w +:+ rest) - String.length rest)) by lia.
    cbn [substring]. now rewrite IH.
Qed.

(** ** The matcher, read forwards and backwards *)

(** Inversion: what a successful repetition has consumed. *)
Lemma exactly_prefix {A} n p s (k : string -> option A) x :
  exactly n p s k = Some x ->
  exists w s', s = w +:+ s' /\ String.length w = n /\ all_chars p w = true /\ k s' = Some x.
Proof.
  revert s. induction n as [|n IH]; intros s; cbn [exactly].
  - intros H. exists "", s. repeat split; assumption || reflexivity.
  - destruct s as [|c s]; [discriminate |]. destruct (p c) eqn:Hc; [| discriminate].
    intros H. destruct (IH _ H) as (w & s' & -> & Hlen & Hall & Hk).
    exists (String c w), s'. cbn [String.append String.length all_chars].
    rewrite Hc, Hall, Hlen. repeat split; assumption || reflexivity.
Qed.

Lemma many_greedy_prefix {A} p s (k : string -> option A) x :
  many_greedy p s k = Some x ->
  exists w s', s = w +:+ s' /\ all_chars p w = true /\ k s' = Some x.
Proof.
  induction s as [|c s IH]; cbn [many_greedy].
  - intros H. exists "", "". repeat split; assumption || reflexivity.
  - assert (Hstay : k (String c s) = Some x ->
              exists w s', String c s = w +:+ s' /\ all_chars p w = true /\ k s' = Some x).
    { intros H. exists "", (String c s). repeat split; assumption || reflexivity. }
    destruct (p c) eqn:Hc; [| exact Hstay].
    destruct (many_greedy p s k) as [y|] eqn:Hrec; [| exact Hstay].
    intros [= <-]. destruct (IH eq_refl) as (w & s' & -> & Hall & Hk).
    exists (String c w), s'. cbn [String.append all_chars]. rewrite Hc, Hall.
    repeat split; assumption || reflexivity.
Qed.

Lemma many_lazy_prefix {A} p s (k : string -> option A) x :
  many_lazy p s k = Some x ->
  exists w s', s = w +:+ s' /\ all_chars p w = true /\ k s' = Some x.
Proof.
  induction s as [|c s IH]; cbn [many_lazy].
  - destruct (k "") as [y|] eqn:Hk; [| discriminate].
    intros [= <-]. exists "", "". repeat split; assumption || reflexivity.
  - destruct (k (String c s)) as [y|] eqn:Hk.
    + intros [= <-]. exists "", (String c s). repeat split; assumption || reflexivity.
    + destruct (p c) eqn:Hc; [| discriminate]. intros H.
      destruct (IH H) as (w & s' & -> & Hall & Hk').
      exists (String c w), s'. cbn [String.append all_chars]. rewrite Hc, Hall.
      repeat split; assumption || reflexivity.
Qed.

(** A group around one or more characters of a class captures a non-empty
    string of characters of that class. *)
Lemma run_group_many_inv {A} i g n cs whole s caps (k : string -> list value -> option A) x :
  run (Group i (Many g (S n) cs)) whole s caps k = Some x ->
  exists w s',
    s = w +:+ s' /\ w <> "" /\ all_chars (mem cs) w = true
    /\ k s' (<[i := Some w]> caps) = Some x.
Proof.
  cbn [run]. intros H.
  apply exactly_prefix in H as (w1 & s1 & -> & Hlen & Hall1 & H).
  assert (exists w2 s2, s1 = w2 +:+ s2 /\ all_chars (mem cs) w2 = true
            /\ k s2 (<[i := Some (substring 0
                  (String.length (w1 +:+ s1) - String.length s2) (w1 +:+ s1))]> caps)
               = Some x) as (w2 & s2 & -> & Hall2 & Hk).
  { destruct g; [apply many_greedy_prefix in H | apply many_lazy_prefix in H]; exact H. }
  exists (w1 +:+ w2), s2. rewrite <- append_assoc in Hk. rewrite substring_whole_prefix in Hk.
  split; [now rewrite append_assoc |]. split.
  - destruct w1; [discriminate | discriminate].
  - split; [| exact Hk]. rewrite all_chars_append, Hall1, Hall2. reflexivity.
Qed.

(** A repetition outside a group only moves forward. *)
Lemma run_many_inv {A} g n cs whole s caps (k : string -> list value -> option A) x :
  run (Many g n cs) whole s caps k = Some x -> exists s', k s' caps = Some x.
Proof.
  cbn [run]. intros H. apply exactly_prefix in H as (w1 & s1 & _ & _ & _ & H).
  destruct g; [apply many_greedy_prefix in H | apply many_lazy_prefix in H];
    destruct H as (_ & s2 & _ & _ & H); eauto.
Qed.

Lemma run_lit_inv {A} l whole s caps (k : string -> list value -> option A) x :
  run (Lit l) whole s caps k = Some x ->
  exists s', strip_prefix l s = Some s' /\ k s' caps = Some x.
Proof. cbn [run]. destruct (strip_prefix l s) as [s'|]; [eauto | discriminate]. Qed.

Lemma run_one_inv {A} cs whole s caps (k : string -> list value -> option A) x :
  run (One cs) whole s caps k = Some x -> exists s', k s' caps = Some x.
Proof.
  cbn [run]. destruct s as [|c s]; [discriminate |].
  destruct (mem cs c); [eauto | discriminate].
Qed.

Lemma search_match_here r whole pos s m :
  search r whole pos s = Some m ->
  exists pos' s', match_here r whole pos' s' = Some m.
Proof.
  revert pos. induction s as [|c s IH]; intros pos; cbn [search].
  - destruct (match_here r whole pos "") eqn:Hm; [| discriminate]. intros [= <-]. eauto.
  - destruct (match_here r whole pos (String c s)) eqn:Hm; [intros [= <-]; eauto |].
    apply IH.
Qed.

(** Forwards: a greedy repetition in front of a text it stops at takes the
    whole run, provided the rest of the pattern then matches. *)
Lemma many_greedy_all {A} p w rest (k : string -> option A) x :
  all_chars p w = true -> stops p rest = true -> k rest = Some x ->
  many_greedy p (w +:+ rest) k = Some x.
Proof.
  intros Hall Hstop Hk. induction w as [|c w IH]; cbn [String.append].
  - destruct rest as [|d rest]; cbn [many_greedy]; [exact Hk |].
    cbn [stops] in Hstop. apply negb_true_iff in Hstop. now rewrite Hstop.
  - cbn [all_chars] in Hall. apply andb_true_iff in Hall as [Hc Hw].
    cbn [many_greedy]. now rewrite Hc, (IH Hw).
Qed.

Lemma run_group_word_all {A} i cs whole w rest caps (k : string -> list value -> option A) x :
  w <> "" -> all_chars (mem cs) w = true -> stops (mem cs) rest = true ->
  k rest (<[i := Some w]> caps) = Some x ->
  run (Group i (Many true 1 cs)) whole (w +:+ rest) caps k = Some x.
Proof.
  intros Hne Hall Hstop Hk. destruct w as [|c w]; [congruence |].
  cbn [all_chars] in Hall. apply andb_true_iff in Hall as [Hc Hw].
  cbn [run exactly String.append]. rewrite Hc.
  apply many_greedy_all; [exact Hw | exact Hstop |].
  change (String c (w +:+ rest)) with (String c w +:+ rest).
  now rewrite substring_whole_prefix.
Qed.

Lemma run_many_all {A} cs whole w rest caps (k : string -> list value -> option A) x :
  w <> "" -> all_chars (mem cs) w = true -> stops (mem cs) rest = true ->
  k rest caps = Some x ->
  run (Many true 1 cs) whole (w +:+ rest) caps k = Some x.
Proof.
  intros Hne Hall Hstop Hk. destruct w as [|c w]; [congruence |].
  cbn [all_chars] in Hall. apply andb_true_iff in Hall as [Hc Hw].
  cbn [run exactly String.append]. rewrite Hc.
  now apply many_greedy_all.
Qed.

Lemma strip_prefix_append l s : strip_prefix l (l +:+ s) = Some s.
Proof.
  induction l as [|c l IH]; cbn [String.append strip_prefix]; [reflexivity |].
  now rewrite Ascii.eqb_refl.
Qed.

(** ** The descriptor reader on whole files *)

Lemma skip_blank_replicate n rest :
  Events.skip_blank (replicate n "" ++ rest) = Events.skip_blank rest.
Proof. induction n as [|n IH]; [reflexivity | exact IH]. Qed.

Lemma skip_blank_head rest : head_not_blank rest -> Events.skip_blank rest = rest.
Proof.
  destruct rest as [|line rest]; [reflexivity |]. cbn [head_not_blank Events.skip_blank].
  intros Hne. apply String.eqb_neq in Hne. now rewrite Hne.
Qed.

Lemma declaration_not_blank line m : exec Events.re_key line = Some m -> line <> "".
Proof. intros H ->. discriminate H. Qed.

Lemma blocks_head_not_blank bs rest :
  Forall well_formed bs -> head_not_blank rest ->
  head_not_blank (concat (map block_lines bs) ++ rest).
Proof.
  intros Hbs Hrest. destruct Hbs as [|b bs Hb _]; [exact Hrest |].
  destruct Hb as ((m & Hm & _) & _). cbn. exact (declaration_not_blank _ _ Hm).
Qed.

(** Reading a run of well-formed blocks takes one round of the outer loop
    per block and yields their descriptors in order; the loop then goes on
    with what follows. *)
Lemma blocks_loop_blocks bs rest fuel :
  Forall well_formed bs -> head_not_blank rest ->
  Events.blocks_loop (length bs + fuel) (concat (map block_lines bs) ++ rest)
  = (fun g => Gen (map block_descriptor bs ++ yielded g) (raised g))
      <$> Events.blocks_loop fuel rest.
Proof.
  intros Hbs Hrest. induction Hbs as [|b bs Hb Hbs IH].
  - cbn [length map concat app Nat.add]. now destruct (Events.blocks_loop fuel rest) as [[]|].
  - destruct Hb as ((m & Hm & Hkey) & Hbody & Hclose).
    cbn [length map concat Nat.add]. unfold block_lines at 1.
    cbn [app]. rewrite <- !app_assoc. cbn [app Events.blocks_loop]. rewrite Hm.
    rewrite (fields_loop_body _ _ [] _ _ Hbody Hclose). cbn [app drop].
    change (drop 0 ?l) with l.
    rewrite skip_blank_replicate, skip_blank_head by now apply blocks_head_not_blank.
    rewrite IH, Hkey. now destruct (Events.blocks_loop fuel rest) as [[]|].
Qed.

Lemma block_lines_length bs : length bs <= length (concat (map block_lines bs)).
Proof.
  induction bs as [|b bs IH]; [reflexivity |].
  cbn [map concat length]. rewrite length_app. unfold block_lines at 1. cbn [length]. lia.
Qed.

(** A body without a closing line ends in a TypeError: either a line matches
    neither pattern, or the loop reads past the last line. *)
Lemma fields_loop_no_closing body acc :
  Forall (fun line => startsWith line "}" = false) body ->
  Events.fields_loop body acc = Throw TypeError.
Proof.
  intros Hbody. revert acc. induction Hbody as [|line body Hline _ IH]; intros acc.
  - reflexivity.
  - cbn [Events.fields_loop]. rewrite Hline.
    destruct (Events.field_match line); [apply IH | reflexivity].
Qed.

Lemma readDescriptions_of_blocks (text_c : string) (bs : list block) :
  drop Events.commentLines (split_char nl text_c) = concat (map block_lines bs) ->
  Forall well_formed bs ->
  Events.readDescriptions text_c = Some (Gen (map block_descriptor bs) None).
Proof.
  intros Hfile Hbs. unfold Events.readDescriptions. rewrite Hfile.
  pose proof (block_lines_length bs) as Hlen.
  replace (S (length (concat (map block_lines bs))))
    with (length bs + S (length (concat (map block_lines bs)) - length bs)) by lia.
  rewrite <- (app_nil_r (concat (map block_lines bs))) at 2.
  rewrite blocks_loop_blocks by (assumption || exact I).
  cbn [Events.blocks_loop fmap option_fmap option_map yielded raised].
  now rewrite app_nil_r.
Qed.

(** X1: a [text.c] whose lines after the comment are a sequence of
    well-formed blocks (declaration line, field lines, closing line, any
    number of blank lines) is read without exception, and the descriptors
    come out one per block, in the order of the blocks. *)
Theorem readDescriptions_blocks (text_c : string) (bs : list block) :
  drop Events.commentLines (split_char nl text_c) = concat (map block_lines bs) ->
  Forall well_formed bs ->
  Events.readDescriptions text_c = Some (Gen (map block_descriptor bs) None).
Proof. apply readDescriptions_of_blocks. Qed.

Lemma sample_blocks_well_formed : Forall well_formed sample_blocks.
Proof.
  repeat constructor; try (eexists; split; reflexivity).
Qed.

Lemma readDescriptions_blocks_witness :
  Events.readDescriptions text_c_sample
  = Some (Gen [Events.Descriptor (Some "pevt_whoisid_help")
                 [Some "Nickname"; Some "Message"; Some "Numeric"];
               Events.Descriptor (Some "pevt_genmsg_help")
                 [Some "Left message"; Some "Right message"]] None).
Proof.
  exact (readDescriptions_blocks text_c_sample sample_blocks eq_refl
           sample_blocks_well_formed).
Defined.

(** X2: when the well-formed blocks of [text.c] are followed by a line that
    is not blank and does not match the declaration pattern, or by a
    declaration whose block has no closing line before the file ends, the
    reader stops with a TypeError after the descriptors of the blocks before;
    the event generator then yields no line at all, whatever
    [textevents.in] holds. *)
Theorem readDescriptions_stray_line (text_c : string) (bs : list block)
    (line : string) (more : list string) :
  drop Events.commentLines (split_char nl text_c)
    = concat (map block_lines bs) ++ line :: more ->
  Forall well_formed bs ->
  line <> "" ->
  exec Events.re_key line = None
    \/ Forall (fun l => startsWith l "}" = false) more ->
  Events.readDescriptions text_c = Some (Gen (map block_descriptor bs) (Some TypeError))
  /\ forall textevents,
       Events.generateRustLines text_c textevents = Some (Gen [] (Some TypeError)).
Proof.
  intros Hfile Hbs Hne Hbad.
  assert (Hread : Events.readDescriptions text_c
                  = Some (Gen (map block_descriptor bs) (Some TypeError))).
  { unfold Events.readDescriptions. rewrite Hfile.
    pose proof (block_lines_length bs) as Hlen.
    replace (S (length (concat (map block_lines bs) ++ line :: more)))
      with (length bs + S (length (concat (map block_lines bs) ++ line :: more) - length bs))
      by (rewrite length_app; lia).
    rewrite blocks_loop_blocks by assumption.
    cbn [Events.blocks_loop].
    destruct (exec Events.re_key line) as [m|] eqn:Hm.
    - destruct Hbad as [Hbad | Hbad]; [discriminate |].
      rewrite (fields_loop_no_closing more [] Hbad).
      cbn [fmap option_fmap option_map yielded raised]. now rewrite app_nil_r.
    - cbn [fmap option_fmap option_map yielded raised]. now rewrite app_nil_r. }
  split; [exact Hread |].
  intros textevents. unfold Events.generateRustLines. now rewrite Hread.
Qed.

Lemma readDescriptions_stray_line_witness :
  Events.readDescriptions
    (text_c_sample +:+ NL +:+ "static char * const pevt_open_help[] = {" +:+ NL
     +:+ marked "Nickname" +:+ NL)
  = Some (Gen (map block_descriptor sample_blocks) (Some TypeError))
  /\ forall textevents,
       Events.generateRustLines
         (text_c_sample +:+ NL +:+ "static char * const pevt_open_help[] = {" +:+ NL
          +:+ marked "Nickname" +:+ NL) textevents
       = Some (Gen [] (Some TypeError)).
Proof.
  apply (readDescriptions_stray_line _ sample_blocks
           "static char * const pevt_open_help[] = {" [marked "Nickname"; ""]).
  - reflexivity.
  - exact sample_blocks_well_formed.
  - discriminate.
  - right. repeat constructor.
Defined.

(** ** The descriptor table, once more *)

(** X3: when several blocks of [text.c] declare the same key, the table
    keeps the fields of the last one; this also holds for
    [pevt_generic_none_help], whose preset empty list a block of [text.c]
    replaces. *)
Theorem last_descriptor_wins (ds after : list Events.descriptor) (d : Events.descriptor) :
  (forall d', In d' after -> to_string (Events.key d') <> to_string (Events.key d)) ->
  Events.field_descriptions (ds ++ d :: after) !! to_string (Events.key d)
  = Some (Events.fields d).
Proof. apply field_descriptions_last. Qed.

Lemma last_descriptor_wins_witness :
  Events.field_descriptions
    ([Events.Descriptor (Some "pevt_generic_none_help") [Some "Old"];
      Events.Descriptor (Some "pevt_join_help") [Some "Nick"]]
     ++ Events.Descriptor (Some "pevt_generic_none_help") [Some "New"] :: [])
    !! "pevt_generic_none_help"
  = Some [Some "New"].
Proof.
  exact (last_descriptor_wins
           [Events.Descriptor (Some "pevt_generic_none_help") [Some "Old"];
            Events.Descriptor (Some "pevt_join_help") [Some "Nick"]] []
           (Events.Descriptor (Some "pevt_generic_none_help") [Some "New"])
           (fun d' (H : In d' []) => match H with end)).
Defined.

(** ** The emit loops *)

(** X4: the event generator yields the lines of the longest run of events,
    from the first, whose lines can be built, one line per event and in the
    order of the events; it ends without exception only if that run is all
    the events, and otherwise with the exception of the first event whose
    line cannot be built. *)
Theorem events_emit_prefix (fd : gmap string (list value)) (events : list Events.EventSpec) :
  Forall2 (fun e line => Events.event_line fd e = Ok line)
    (take (length (yielded (Events.emit_loop fd events))) events)
    (yielded (Events.emit_loop fd events))
  /\ (raised (Events.emit_loop fd events) = None ->
      length (yielded (Events.emit_loop fd events)) = length events)
  /\ (forall x, raised (Events.emit_loop fd events) = Some x ->
      exists e, events !! length (yielded (Events.emit_loop fd events)) = Some e
                /\ Events.event_line fd e = Throw x).
Proof.
  induction events as [|e events (IH1 & IH2 & IH3)]; cbn [Events.emit_loop].
  - cbn. split; [constructor |]. split; [reflexivity | discriminate].
  - destruct (Events.event_line fd e) as [line|x] eqn:He.
    + cbn [gen_yield yielded raised length take]. split; [now constructor |].
      split; [intros H; now rewrite (IH2 H) | exact IH3].
    + cbn [yielded raised length take]. split; [constructor |].
      split; [discriminate |]. intros y [= <-]. exists e. now split.
Qed.

Lemma events_emit_prefix_witness :
  exists e,
    three_events !! 1 = Some e
    /\ Events.event_line (Events.field_descriptions (map block_descriptor sample_blocks)) e
       = Throw TypeError.
Proof.
  exact (proj2 (proj2 (events_emit_prefix
                         (Events.field_descriptions (map block_descriptor sample_blocks))
                         three_events)) TypeError eq_refl).
Defined.

(** X5: the same for the preference generator, which reads its rows while it
    emits: it yields the lines of the longest run of rows whose lines can be
    built; if that run is all the rows it ends as the reader ended, and
    otherwise with the exception of the first row whose line cannot be
    built. *)
Theorem prefs_emit_prefix (prefs : list Prefs.PrefSpec) (stop : option exn) :
  Forall2 (fun p line => Prefs.pref_line p = Ok line)
    (take (length (yielded (Prefs.emit_loop prefs stop))) prefs)
    (yielded (Prefs.emit_loop prefs stop))
  /\ (length (yielded (Prefs.emit_loop prefs stop)) = length prefs ->
      raised (Prefs.emit_loop prefs stop) = stop)
  /\ (forall p, prefs !! length (yielded (Prefs.emit_loop prefs stop)) = Some p ->
      exists x, Prefs.pref_line p = Throw x
                /\ raised (Prefs.emit_loop prefs stop) = Some x).
Proof.
  induction prefs as [|p prefs (IH1 & IH2 & IH3)]; cbn [Prefs.emit_loop].
  - cbn. split; [constructor |]. split; [reflexivity | discriminate].
  - destruct (Prefs.pref_line p) as [line|x] eqn:Hp.
    + cbn [gen_yield yielded raised length take]. split; [now constructor |].
      split; [intros [= H]; exact (IH2 H) | exact IH3].
    + cbn [yielded raised length take]. split; [constructor |].
      split; [discriminate |]. intros q [= <-]. exists x. now split.
Qed.

Lemma prefs_emit_prefix_witness :
  exists x,
    Prefs.pref_line (Prefs.Pref (Some "away_size_max") (Some "TYPE_FLOAT")) = Throw x
    /\ raised (Prefs.emit_loop three_prefs None) = Some x.
Proof.
  exact (proj2 (proj2 (prefs_emit_prefix three_prefs None))
           (Prefs.Pref (Some "away_size_max") (Some "TYPE_FLOAT")) eq_refl).
Defined.

(** ** The identifier of an event *)

Lemma is_word_upper c : is_word c = true -> is_word (upper c) = true.
Proof. destruct c as [[] [] [] [] [] [] [] []]; vm_compute; congruence. Qed.

Lemma is_word_lower c : is_word c = true -> is_word (lower c) = true.
Proof. destruct c as [[] [] [] [] [] [] [] []]; vm_compute; congruence. Qed.

Lemma upper_not_small c : between 97 122 (code (upper c)) = false.
Proof. destruct c as [[] [] [] [] [] [] [] []]; vm_compute; reflexivity. Qed.

Lemma all_word_lower w : all_word w = true -> all_word (toLowerCase w) = true.
Proof.
  induction w as [|c w IH]; [reflexivity |]. cbn [all_word toLowerCase map_string].
  intros [Hc Hw]%andb_true_iff. fold (toLowerCase w). now rewrite is_word_lower, IH.
Qed.

Lemma all_word_title w : all_word w = true -> all_word (Spec.title w) = true.
Proof.
  destruct w as [|c w]; [reflexivity |]. cbn [all_word Spec.title].
  intros [Hc Hw]%andb_true_iff. now rewrite is_word_upper, all_word_lower.
Qed.

Lemma all_word_append a b : all_word (a +:+ b) = all_word a && all_word b.
Proof. now rewrite !all_word_all_chars, all_chars_append. Qed.

Lemma all_word_concat ws :
  Forall (fun w => all_word w = true) ws -> all_word (String.concat "" ws) = true.
Proof.
  induction 1 as [|w ws Hw Hws IH]; [reflexivity |].
  destruct ws as [|w' ws]; [exact Hw |].
  change (all_word (w +:+ "" +:+ String.concat "" (w' :: ws)) = true).
  cbn [String.append]. now rewrite all_word_append, Hw, IH.
Qed.

(** X6: whenever the conversion of an event name returns, the identifier is
    made of word characters only, is not empty, and does not begin with a
    small letter. *)
Theorem identifier_is_a_word (name ident : string) :
  Events.nameToCamelCase (Some name) = Ok ident ->
  all_word ident = true
  /\ exists c rest, ident = String c rest /\ between 97 122 (code c) = false.
Proof.
  destruct (empty_token_dec (Spec.tokens name)) as [Hin | Hne].
  - rewrite (nameToCamelCase_throw _ Hin). discriminate.
  - rewrite (nameToCamelCase_ok _ Hne). intros [= <-].
    unfold Spec.title_case_identifier. split.
    + apply all_word_concat, Forall_map.
      eapply Forall_impl; [apply tokens_all_word |]. intros w. apply all_word_title.
    + pose proof (tokens_nonempty name) as Hnil.
      destruct Hne as [|w ws Hw _]; [congruence |].
      destruct w as [|c w]; [congruence |].
      destruct ws as [|w' ws]; cbn [map String.concat Spec.title String.append];
        eexists _, _; (split; [reflexivity | apply upper_not_small]).
Qed.

Lemma identifier_is_a_word_witness :
  all_word "CtcpSend" = true
  /\ exists c rest, "CtcpSend" = String c rest /\ between 97 122 (code c) = false.
Proof. exact (identifier_is_a_word "CTCP Send" "CtcpSend" eq_refl). Defined.

(** ** Blank name lines *)

Lemma readDescriptions_sample :
  Events.readDescriptions text_c_sample = Some (Gen (map block_descriptor sample_blocks) None).
Proof. reflexivity. Qed.

Lemma events_emit_length fd events :
  length (yielded (Events.emit_loop fd events)) <= length events.
Proof.
  induction events as [|e events IH]; cbn [Events.emit_loop]; [reflexivity |].
  destruct (Events.event_line fd e); cbn [gen_yield yielded length]; lia.
Qed.

(** X7: every line of [textevents.in] at an index [6k] is taken as a name.
    If one of them is empty (the file is empty, or it ends with a separator
    line and a line feed), the generator ends with an exception, having
    yielded a line for at most the [k] events before it. *)
Theorem blank_name_line_is_fatal (text_c textevents : string)
    (ds : list Events.descriptor) (k : nat) :
  Events.readDescriptions text_c = Some (Gen ds None) ->
  split_char nl textevents !! (6 * k) = Some "" ->
  exists g,
    Events.generateRustLines text_c textevents = Some g
    /\ raised g <> None
    /\ length (yielded g) <= k.
Proof.
  intros Hds Hline. unfold Events.generateRustLines, Events.readTextEvents.
  rewrite Hds. cbn [mbind option_bind raised yielded].
  set (lines := split_char nl textevents) in *.
  assert (Hk : 6 * k < length lines) by (eapply lookup_lt_Some; exact Hline).
  destruct (events_loop_spec (S (length lines)) lines 0) as (evs & -> & _ & _ & Hnth);
    [lia | lia |].
  cbn [mbind option_bind]. eexists. split; [reflexivity |].
  specialize (Hnth k ltac:(lia)). cbn [Nat.add] in Hnth.
  assert (Hthrow : Events.event_line (Events.field_descriptions ds)
                     (event_at lines (6 * k)) = Throw TypeError).
  { unfold Events.event_line, event_at. cbn [Events.name].
    rewrite Nat.add_0_r, Hline. reflexivity. }
  rewrite <- (take_drop_middle evs k _ Hnth).
  destruct (events_emit_stops _ (take k evs) _ (drop (S k) evs) _ Hthrow) as [Hy Hr].
  split; [exact Hr |]. rewrite Hy.
  pose proof (events_emit_length (Events.field_descriptions ds) (take k evs)) as Hlen.
  rewrite length_take in Hlen. lia.
Qed.

Lemma blank_name_line_is_fatal_witness :
  exists g,
    Events.generateRustLines text_c_sample "" = Some g
    /\ raised g <> None
    /\ length (yielded g) <= 0.
Proof.
  exact (blank_name_line_is_fatal text_c_sample "" _ 0 readDescriptions_sample eq_refl).
Defined.

(** ** What the patterns capture *)

Lemma run_then {A} r1 r2 whole s caps (k : string -> list value -> option A) :
  run (Then r1 r2) whole s caps k
  = run r1 whole s caps (fun s' caps' => run r2 whole s' caps' k).
Proof. reflexivity. Qed.

Lemma run_end_inv {A} whole s caps (k : string -> list value -> option A) x :
  run End_ whole s caps k = Some x -> k "" caps = Some x.
Proof. cbn [run]. destruct s; [trivial | discriminate]. Qed.

(** The declaration pattern captures a non-empty word. *)
Lemma re_key_capture line m :
  exec Events.re_key line = Some m -> word_value (slot m 1).
Proof.
  intros H. apply search_match_here in H as (pos & s & H).
  unfold match_here, Events.re_key in H.
  rewrite ?run_then in H; apply run_lit_inv in H as (s1 & _ & H).
  rewrite ?run_then in H; apply run_many_inv in H as (s2 & H).
  rewrite ?run_then in H; apply run_group_many_inv in H as (w & s3 & -> & Hne & Hall & H).
  rewrite ?run_then in H; apply run_lit_inv in H as (s4 & _ & H).
  injection H as <-. exists w. now repeat split.
Qed.

(** Either field pattern captures a non-empty text without line terminator. *)
Lemma field_match_capture line m :
  Events.field_match line = Some m -> text_value (slot m 1).
Proof.
  unfold Events.field_match. destruct (exec Events.re_marked line) as [m'|] eqn:Hm.
  - intros [= <-]. apply search_match_here in Hm as (pos & s & H).
    unfold match_here, Events.re_marked in H.
    rewrite ?run_then in H; apply run_lit_inv in H as (s1 & _ & H).
    rewrite ?run_then in H; apply run_group_many_inv in H as (w & s3 & -> & Hne & Hall & H).
    rewrite ?run_then in H; apply run_lit_inv in H as (s4 & _ & H).
    injection H as <-. exists w. now repeat split.
  - intros H. apply search_match_here in H as (pos & s & H).
    unfold match_here, Events.re_bare in H.
    rewrite ?run_then in H; apply run_one_inv in H as (s0 & H).
    rewrite ?run_then in H; apply run_lit_inv in H as (s1 & _ & H).
    rewrite ?run_then in H; apply run_group_many_inv in H as (w & s3 & -> & Hne & Hall & H).
    rewrite ?run_then in H; apply run_lit_inv in H as (s4 & _ & H).
    rewrite ?run_then in H; apply run_many_inv in H as (s5 & H).
    rewrite ?run_then in H; apply run_end_inv in H.
    injection H as <-. exists w. now repeat split.
Qed.

(** The row pattern captures two non-empty words. *)
Lemma re_row_capture line m :
  exec Prefs.re_row line = Some m -> word_value (slot m 1) /\ word_value (slot m 2).
Proof.
  intros H. apply search_match_here in H as (pos & s & H).
  unfold match_here, Prefs.re_row in H.
  rewrite ?run_then in H; apply run_lit_inv in H as (s1 & _ & H).
  rewrite ?run_then in H; apply run_group_many_inv in H as (n & s2 & -> & Hn & Hnall & H).
  rewrite ?run_then in H; apply run_lit_inv in H as (s3 & _ & H).
  rewrite ?run_then in H; apply run_many_inv in H as (s4 & H).
  rewrite ?run_then in H; apply run_lit_inv in H as (s5 & _ & H).
  rewrite ?run_then in H; apply run_group_many_inv in H as (t & s6 & -> & Ht & Htall & H).
  injection H as <-. split; [exists n | exists t]; now repeat split.
Qed.

(** The argument pattern captures a non-empty word. *)
Lemma argRegex_capture depth whole pos s m :
  match_here (Handle.argRegex depth) whole pos s = Some m -> word_value (slot m 1).
Proof.
  intros H. unfold match_here, Handle.argRegex in H.
  rewrite ?run_then in H; apply run_lit_inv in H as (s1 & _ & H).
  rewrite ?run_then in H; apply run_group_many_inv in H as (w & s2 & -> & Hne & Hall & H).
  rewrite ?run_then in H; apply run_lit_inv in H as (s3 & _ & H).
  injection H as <-. exists w. now repeat split.
Qed.

(** ** What the readers hand on *)

Lemma fields_loop_values rest acc fs rest2 :
  Events.fields_loop rest acc = Ok (fs, rest2) ->
  Forall text_value acc -> Forall text_value fs.
Proof.
  revert acc. induction rest as [|line rest IH]; intros acc; cbn [Events.fields_loop].
  - discriminate.
  - destruct (startsWith line "}"); [now intros [= <- <-] |].
    destruct (Events.field_match line) as [m|] eqn:Hm; [| discriminate].
    intros H Hacc. apply (IH _ H). apply Forall_app. split; [exact Hacc |].
    constructor; [exact (field_match_capture _ _ Hm) | constructor].
Qed.

Lemma blocks_loop_values fuel rest g :
  Events.blocks_loop fuel rest = Some g ->
  Forall (fun d => word_value (Events.key d) /\ Forall text_value (Events.fields d))
    (yielded g).
Proof.
  revert rest g. induction fuel as [|fuel IH]; intros rest g; cbn [Events.blocks_loop];
    [discriminate |].
  destruct rest as [|line rest1]; [intros [= <-]; constructor |].
  destruct (exec Events.re_key line) as [m|] eqn:Hm; [| intros [= <-]; constructor].
  destruct (Events.fields_loop rest1 []) as [[fs rest2]|] eqn:Hfs;
    [| intros [= <-]; constructor].
  destruct (Events.blocks_loop fuel (Events.skip_blank (drop 1 rest2))) as [g'|] eqn:Hg;
    [| discriminate].
  intros [= <-]. cbn [gen_yield yielded]. constructor; [| exact (IH _ _ Hg)].
  cbn [Events.key Events.fields]. split; [exact (re_key_capture _ _ Hm) |].
  apply (fields_loop_values _ _ _ _ Hfs). constructor.
Qed.

(** X8: whatever [text.c] holds, a descriptor that the reader yields has a
    key that is a non-empty string of word characters and fields that are
    non-empty strings without line terminator; none of them is undefined. *)
Theorem descriptors_are_defined (text_c : string) (g : gen Events.descriptor) :
  Events.readDescriptions text_c = Some g ->
  Forall (fun d => word_value (Events.key d) /\ Forall text_value (Events.fields d))
    (yielded g).
Proof. apply blocks_loop_values. Qed.

Lemma descriptors_are_defined_witness :
  Forall (fun d => word_value (Events.key d) /\ Forall text_value (Events.fields d))
    (map block_descriptor sample_blocks).
Proof.
  exact (descriptors_are_defined text_c_sample _ readDescriptions_sample).
Defined.

Lemma prefs_loop_values lines :
  Forall (fun p => word_value (Prefs.name p) /\ word_value (Prefs.type p))
    (yielded (Prefs.prefs_loop lines)).
Proof.
  induction lines as [|line lines IH]; cbn [Prefs.prefs_loop]; [constructor |].
  destruct (String.eqb line ""); [exact IH |].
  destruct (test Prefs.re_indented line); cbn [negb]; [| exact IH].
  destruct (includes line Prefs.sentinel); [exact IH |].
  destruct (exec Prefs.re_row line) as [m|] eqn:Hm; [| constructor].
  cbn [gen_yield yielded]. constructor; [| exact IH].
  exact (re_row_capture _ _ Hm).
Qed.

(** X9: whatever [cfgfiles.c] holds, a PrefSpec that the reader yields has a
    name and a type that are non-empty strings of word characters; neither
    is undefined. *)
Theorem prefs_are_defined (cfgfiles_c : string) :
  Forall (fun p => word_value (Prefs.name p) /\ word_value (Prefs.type p))
    (yielded (Prefs.readPrefs cfgfiles_c)).
Proof. apply prefs_loop_values. Qed.

(** ** Lines the preference reader passes over *)

Lemma prefs_loop_skip line rest :
  skippable line -> Prefs.prefs_loop (line :: rest) = Prefs.prefs_loop rest.
Proof.
  intros Hskip. cbn [Prefs.prefs_loop].
  destruct (String.eqb_spec line "") as [|Hne]; [reflexivity |].
  destruct Hskip as [H | [H | H]]; [congruence | now rewrite H |].
  destruct (test Prefs.re_indented line); cbn [negb]; [now rewrite H | reflexivity].
Qed.

(** X10: an empty line, a line that does not begin with white space, and a
    line that contains the zero row [{0, 0, 0}] change nothing: the
    generator gives the same result with and without such a line.  In
    particular the zero row does not end the table; the rows after it are
    read like those before. *)
Theorem skipped_lines_change_nothing (with_line without_line : string)
    (before after : list string) (line : string) :
  drop Prefs.prefixLines (split_char nl with_line) = before ++ line :: after ->
  drop Prefs.prefixLines (split_char nl without_line) = before ++ after ->
  skippable line ->
  Prefs.readPrefs with_line = Prefs.readPrefs without_line
  /\ Prefs.generateRustLines with_line = Prefs.generateRustLines without_line.
Proof.
  intros Hwith Hwithout Hskip.
  assert (Hread : Prefs.readPrefs with_line = Prefs.readPrefs without_line).
  { unfold Prefs.readPrefs. rewrite Hwith, Hwithout, !prefs_loop_app.
    now rewrite (prefs_loop_skip line after Hskip). }
  split; [exact Hread |]. unfold Prefs.generateRustLines. now rewrite Hread.
Qed.

Lemma skipped_lines_change_nothing_witness :
  Prefs.readPrefs prefs_row_after_zero
  = Gen [Prefs.Pref (Some "away_auto_unmark") (Some "TYPE_BOOL");
         Prefs.Pref (Some "away_reason") (Some "TYPE_STR")] None
  /\ Prefs.generateRustLines prefs_row_after_zero
     = Prefs.generateRustLines prefs_without_zero.
Proof.
  exact (skipped_lines_change_nothing prefs_row_after_zero prefs_without_zero
           [row_line TAB "away_auto_unmark" " P_OFFINT (hex_away_auto_unmark)"
              "TYPE_BOOL" "},"]
           [row_line TAB "away_reason" " P_OFFSET (hex_away_reason)" "TYPE_STR" "},";
            "};"; ""]
           (TAB +:+ "{0, 0, 0},") eq_refl eq_refl (or_intror (or_intror eq_refl))).
Defined.

(** ** A preference row, in general *)

Lemma space_not_brace c : is_space c = true -> Ascii.eqb "{" c = false.
Proof. destruct c as [[] [] [] [] [] [] [] []]; vm_compute; congruence. Qed.

Lemma re_row_not_here whole pos c s :
  is_space c = true -> match_here Prefs.re_row whole pos (String c s) = None.
Proof.
  intros Hc. unfold match_here, Prefs.re_row. rewrite run_then.
  cbn [run]. unfold QUOTE. cbn [String.append strip_prefix].
  now rewrite (space_not_brace c Hc).
Qed.

Lemma re_row_skip_indent whole indent s pos :
  all_chars is_space indent = true ->
  search Prefs.re_row whole pos (indent +:+ s)
  = search Prefs.re_row whole (pos + String.length indent) s.
Proof.
  revert pos. induction indent as [|c indent IH]; intros pos Hall.
  - cbn [String.append String.length]. now rewrite Nat.add_0_r.
  - cbn [all_chars] in Hall. apply andb_true_iff in Hall as [Hc Hall].
    cbn [String.append search String.length]. rewrite (re_row_not_here _ _ _ _ Hc).
    rewrite (IH (S pos) Hall). f_equal. lia.
Qed.

Lemma run_lit_here {A} l whole s caps (k : string -> list value -> option A) :
  run (Lit l) whole (l +:+ s) caps k = k s caps.
Proof. cbn [run]. now rewrite strip_prefix_append. Qed.

(** The row pattern on a row: it captures the name and the type. *)
Lemma re_row_here whole pos name mid type rest :
  name <> "" -> all_chars is_word name = true ->
  mid <> "" -> all_chars (mem (Except ",")) mid = true ->
  type <> "" -> all_chars is_word type = true ->
  stops is_word rest = true ->
  exists m,
    match_here Prefs.re_row whole pos
      ("{" +:+ QUOTE +:+ name +:+ QUOTE +:+ "," +:+ mid +:+ ", " +:+ type +:+ rest) = Some m
    /\ slot m 1 = Some name /\ slot m 2 = Some type.
Proof.
  intros Hname Hnameall Hmid Hmidall Htype Htypeall Hrest.
  eexists. split.
  - unfold match_here, Prefs.re_row. rewrite !run_then.
    change ("{" +:+ QUOTE +:+ name +:+ QUOTE +:+ "," +:+ mid +:+ ", " +:+ type +:+ rest)
      with (("{" +:+ QUOTE) +:+ name +:+ (QUOTE +:+ ",") +:+ mid +:+ ", " +:+ type +:+ rest).
    rewrite run_lit_here, run_then.
    apply run_group_word_all; [exact Hname | exact Hnameall | reflexivity |].
    rewrite run_then, run_lit_here, run_then.
    apply run_many_all; [exact Hmid | exact Hmidall | reflexivity |].
    rewrite run_then, run_lit_here.
    apply run_group_word_all; [exact Htype | exact Htypeall | exact Hrest |].
    reflexivity.
  - split; reflexivity.
Qed.

Lemma indented_line c indent s : is_space c = true ->
  test Prefs.re_indented (String c indent +:+ s) = true.
Proof.
  intros Hc. unfold test, exec. cbn [String.append search].
  unfold match_here, Prefs.re_indented. rewrite run_then. cbn [run mem].
  now rewrite Nat.eqb_refl, Hc.
Qed.

Lemma prefs_loop_row (indent name mid type rest : string) (more : list string) :
  indent <> "" -> all_chars is_space indent = true ->
  name <> "" -> all_chars is_word name = true ->
  mid <> "" -> all_chars (mem (Except ",")) mid = true ->
  type <> "" -> all_chars is_word type = true ->
  stops is_word rest = true ->
  includes (row_line indent name mid type rest) Prefs.sentinel = false ->
  Prefs.prefs_loop (row_line indent name mid type rest :: more)
  = gen_yield (Prefs.Pref (Some name) (Some type)) (Prefs.prefs_loop more).
Proof.
  intros Hindent Hspace Hname Hnameall Hmid Hmidall Htype Htypeall Hrest Hzero.
  cbn [Prefs.prefs_loop]. rewrite Hzero.
  destruct indent as [|c indent]; [congruence |].
  pose proof Hspace as Hspace'. cbn [all_chars] in Hspace'.
  apply andb_true_iff in Hspace' as [Hc _].
  unfold row_line. rewrite (indented_line c indent _ Hc). cbn [negb].
  change (String.eqb (String c indent +:+ ?s) "") with false. cbv iota.
  unfold exec. rewrite (re_row_skip_indent _ _ _ 0 Hspace).
  destruct (re_row_here (String.length (String c indent +:+ "{" +:+ QUOTE +:+ name +:+ QUOTE
                                         +:+ "," +:+ mid +:+ ", " +:+ type +:+ rest))
              (0 + String.length (String c indent)) name mid type rest
              Hname Hnameall Hmid Hmidall Htype Htypeall Hrest) as (m & Hm & H1 & H2).
  destruct ("{" +:+ QUOTE +:+ name +:+ QUOTE +:+ "," +:+ mid +:+ ", " +:+ type +:+ rest)
    eqn:Hs; cbn [search]; rewrite Hm, H1, H2; reflexivity.
Qed.

(** X11: an indented row [{"name", mid, TYPE ...] is read as the PrefSpec of
    its name and type, for every non-empty name and type of word characters
    and every non-empty field without comma between them, provided the
    line does not contain the zero row. *)
Theorem row_is_read (indent name mid type rest : string) (more : list string) :
  indent <> "" -> all_chars is_space indent = true ->
  name <> "" -> all_chars is_word name = true ->
  mid <> "" -> all_chars (mem (Except ",")) mid = true ->
  type <> "" -> all_chars is_word type = true ->
  stops is_word rest = true ->
  includes (row_line indent name mid type rest) Prefs.sentinel = false ->
  Prefs.prefs_loop (row_line indent name mid type rest :: more)
  = gen_yield (Prefs.Pref (Some name) (Some type)) (Prefs.prefs_loop more).
Proof. apply prefs_loop_row. Qed.

Lemma row_is_read_witness :
  Prefs.prefs_loop
    [row_line TAB "away_auto_unmark" " P_OFFINT (hex_away_auto_unmark)" "TYPE_BOOL" "},"]
  = Gen [Prefs.Pref (Some "away_auto_unmark") (Some "TYPE_BOOL")] None.
Proof.
  exact (row_is_read TAB "away_auto_unmark" " P_OFFINT (hex_away_auto_unmark)" "TYPE_BOOL"
           "}," [] ltac:(discriminate) eq_refl ltac:(discriminate) eq_refl
           ltac:(discriminate) eq_refl ltac:(discriminate) eq_refl eq_refl eq_refl).
Defined.

(** ** The identifier of a preference *)

Lemma pieces_nonempty sep s : pieces sep s <> [].
Proof.
  destruct s as [|c s]; cbn [pieces]; [discriminate |].
  destruct (sep c); [discriminate |]. destruct (pieces sep s); discriminate.
Qed.

Lemma split_go_One whole cs s acc :
  split_go (One cs) whole s acc 0 = glue acc (pieces (mem cs) s).
Proof.
  revert acc. induction s as [|c s IH]; intros acc.
  - cbn. now rewrite append_empty_r.
  - rewrite split_go_One_step. cbn [pieces]. pose proof (pieces_nonempty (mem cs) s) as Hne.
    destruct (mem cs c); rewrite IH;
      destruct (pieces (mem cs) s) as [|w ws]; try congruence; cbn [glue].
    + now rewrite append_empty_r.
    + now rewrite append_snoc_cons.
Qed.

(** [split] on a one-character pattern cuts at every character of the
    class. *)
Lemma split_One cs s : split (One cs) s = pieces (mem cs) s.
Proof.
  destruct s as [|c s]; [reflexivity |].
  unfold split. rewrite split_go_One.
  pose proof (pieces_nonempty (mem cs) (String c s)) as Hne.
  destruct (pieces (mem cs) (String c s)); [congruence | reflexivity].
Qed.

Lemma pieces_all_chars p sep s :
  all_chars p s = true ->
  Forall (fun w => all_chars (fun c => p c && negb (sep c)) w = true) (pieces sep s).
Proof.
  induction s as [|c s IH]; cbn [pieces all_chars]; [repeat constructor |].
  intros [Hc Hs]%andb_true_iff. specialize (IH Hs).
  destruct (sep c) eqn:Hsep; [now constructor |].
  pose proof (pieces_nonempty sep s) as Hne.
  destruct (pieces sep s) as [|w ws]; [congruence |].
  inversion IH as [|? ? Hw Hws]; subst.
  constructor; [| exact Hws]. cbn [all_chars]. now rewrite Hc, Hsep, Hw.
Qed.

Lemma is_ident_char_upper c : is_ident_char c = true -> is_ident_char (upper c) = true.
Proof. destruct c as [[] [] [] [] [] [] [] []]; vm_compute; congruence. Qed.

Lemma is_ident_char_lower c : is_ident_char c = true -> is_ident_char (lower c) = true.
Proof. destruct c as [[] [] [] [] [] [] [] []]; vm_compute; congruence. Qed.

Lemma ident_chars_title w :
  all_chars is_ident_char w = true -> all_chars is_ident_char (Spec.title w) = true.
Proof.
  destruct w as [|c w]; [reflexivity |]. cbn [all_chars Spec.title].
  intros [Hc Hw]%andb_true_iff. rewrite (is_ident_char_upper c Hc). cbn [andb].
  clear c Hc. induction w as [|c w IH]; [reflexivity |].
  cbn [all_chars] in Hw. apply andb_true_iff in Hw as [Hc Hw].
  cbn [toLowerCase map_string all_chars]. rewrite (is_ident_char_lower c Hc).
  exact (IH Hw).
Qed.

Lemma all_chars_concat p ws :
  Forall (fun w => all_chars p w = true) ws -> all_chars p (String.concat "" ws) = true.
Proof.
  induction 1 as [|w ws Hw Hws IH]; [reflexivity |].
  destruct ws as [|w' ws]; [exact Hw |].
  change (all_chars p (w +:+ "" +:+ String.concat "" (w' :: ws)) = true).
  cbn [String.append]. now rewrite all_chars_append, Hw, IH.
Qed.

(** X12: for a name of word characters, which is all the reader yields, the
    conversion of the preference generator throws a TypeError when the name
    has an empty segment between underscores (a leading, a trailing or a
    doubled underscore); otherwise it returns the segments, each with its
    first character upper-cased and the rest lower-cased, put together, and
    that identifier is made of word characters and has no underscore. *)
Theorem prefs_identifier (name : string) :
  all_chars is_word name = true ->
  (In "" (pieces (mem (Ch "_")) name) ->
     Prefs.nameToCamelCase (Some name) = Throw TypeError)
  /\ (Forall (fun w => w <> "") (pieces (mem (Ch "_")) name) ->
      Prefs.nameToCamelCase (Some name)
      = Ok (String.concat "" (map Spec.title (pieces (mem (Ch "_")) name)))
      /\ all_chars is_ident_char
           (String.concat "" (map Spec.title (pieces (mem (Ch "_")) name))) = true).
Proof.
  intros Hword. unfold Prefs.nameToCamelCase. rewrite split_One.
  change (map_result Prefs.capitalize) with (map_result Events.capitalize). split.
  - intros Hin. now rewrite (map_capitalize_throw _ Hin).
  - intros Hne. rewrite (map_capitalize_ok _ Hne), join_titles. split; [reflexivity |].
    apply all_chars_concat, Forall_map.
    eapply Forall_impl; [exact (pieces_all_chars is_word (mem (Ch "_")) name Hword) |].
    intros w. apply ident_chars_title.
Qed.

Lemma prefs_identifier_witness :
  Prefs.nameToCamelCase (Some "away_auto_unmark") = Ok "AwayAutoUnmark"
  /\ all_chars is_ident_char "AwayAutoUnmark" = true.
Proof.
  exact (proj2 (prefs_identifier "away_auto_unmark" eq_refl)
           ltac:(repeat constructor; discriminate)).
Defined.

(** ** The rewriter outside the blocks *)

Lemma includes_tail c s p : includes (String c s) p = false -> includes s p = false.
Proof. cbn [includes]. now intros [_ H]%orb_false_iff. Qed.

Lemma includes_head s p : includes s p = false -> strip_prefix p s = None.
Proof.
  destruct s as [|c s]; cbn [includes]; unfold startsWith;
    intros H; apply orb_false_iff in H as [H _];
    now destruct (strip_prefix p _).
Qed.

Lemma re_unsafe_fn_not_here whole pos s :
  strip_prefix "unsafe fn " s = None -> match_here Handle.re_unsafe_fn whole pos s = None.
Proof.
  intros H. unfold match_here, Handle.re_unsafe_fn. rewrite run_then. cbn [run].
  now rewrite H.
Qed.

Lemma replace_go_no_block f whole pos s :
  includes s "unsafe fn " = false ->
  replace_go Handle.re_unsafe_fn f whole pos s 0 = Some s.
Proof.
  revert pos. induction s as [|c s IH]; intros pos Hno; cbn [replace_go];
    rewrite (re_unsafe_fn_not_here _ _ _ (includes_head _ _ Hno)); [reflexivity |].
  now rewrite (IH (S pos) (includes_tail _ _ _ Hno)).
Qed.

(** X13: a file without the text [unsafe fn ] has no block to rewrite, and
    [main] writes it back unchanged; in particular an empty file gives an
    empty file. *)
Theorem no_block_no_change (input : string) :
  includes input "unsafe fn " = false -> Handle.main input = Some input.
Proof. apply replace_go_no_block. Qed.

Lemma no_block_no_change_witness :
  Handle.main "pub fn get_info(ph: *mut hexchat_plugin) {}"
  = Some "pub fn get_info(ph: *mut hexchat_plugin) {}".
Proof.
  exact (no_block_no_change "pub fn get_info(ph: *mut hexchat_plugin) {}" eq_refl).
Defined.

(** ** The loop over the matches *)

Lemma exec_g_found r str lastIndex m lastIndex' :
  exec_g r str lastIndex = (Some m, lastIndex') ->
  lastIndex <= index m
  /\ lastIndex' = index m + String.length (matched m)
  /\ lastIndex' <= String.length str
  /\ exists pos s, match_here r (String.length str) pos s = Some m.
Proof.
  unfold exec_g. destruct (Nat.ltb_spec (String.length str) lastIndex) as [Hlt | Hle];
    [discriminate |].
  destruct (search r (String.length str) lastIndex (drop_string lastIndex str)) as [m'|] eqn:Hs;
    [| discriminate].
  intros [= <- <-]. pose proof (search_inv _ _ _ _ _ Hs) as (H1 & H2 & _).
  pose proof (drop_string_length lastIndex str Hle).
  split; [exact H1 |]. split; [reflexivity |]. split; [lia |].
  exact (search_match_here _ _ _ _ _ Hs).
Qed.

Lemma repeatWhile_order r str fuel lastIndex ms :
  Handle.repeatWhile fuel (exec_g r str) lastIndex = Some ms ->
  in_text_order lastIndex ms
  /\ Forall (fun m => index m + String.length (matched m) <= String.length str
                      /\ exists pos s, match_here r (String.length str) pos s = Some m) ms.
Proof.
  revert lastIndex ms. induction fuel as [|fuel IH]; intros lastIndex ms;
    cbn [Handle.repeatWhile]; [discriminate |].
  destruct (exec_g r str lastIndex) as [[m|] lastIndex'] eqn:Hexec.
  - destruct (Handle.repeatWhile fuel (exec_g r str) lastIndex') as [ms'|] eqn:Hrec;
      [| discriminate].
    intros [= <-]. apply exec_g_found in Hexec as (H1 & -> & H3 & H4).
    destruct (IH _ _ Hrec) as [Hord Hall].
    split; [split; assumption |]. constructor; [now split | exact Hall].
  - intros [= <-]. split; [exact I | constructor].
Qed.

(** X14: on every block and for every indentation, the loop over the
    matches of the argument pattern ends, and the matches it returns lie one
    after the other in the block, in the order of the text and without
    overlap; each captures a name that is a non-empty string of word
    characters, never undefined. *)
Theorem arguments_in_text_order (str : string) (depth : value) :
  exists found,
    Handle.allMatches str (Handle.argRegex depth) = Some found
    /\ in_text_order 0 found
    /\ Forall (fun m => word_value (slot m 1)
                        /\ index m + String.length (matched m) <= String.length str)
         found.
Proof.
  destruct (allMatches_total str depth) as [found Hfound].
  exists found. split; [exact Hfound |].
  destruct (repeatWhile_order _ _ _ _ _ Hfound) as [Hord Hall].
  split; [exact Hord |]. eapply Forall_impl; [exact Hall |].
  intros m (Hend & pos & s & Hm). split; [| exact Hend].
  exact (argRegex_capture _ _ _ _ _ Hm).
Qed.

(** X15: [repeatWhile] has no way out when the callback keeps returning a
    match: if a global [exec] finds a match that leaves [lastIndex] where it
    was (an empty match at [lastIndex]), every later call finds it again and
    the loop does not end, however many rounds it is given. *)
Theorem repeatWhile_empty_match_loops (r : regex) (str : string) (lastIndex : nat)
    (m : rmatch) (fuel : nat) :
  exec_g r str lastIndex = (Some m, lastIndex) ->
  Handle.repeatWhile fuel (exec_g r str) lastIndex = None.
Proof.
  intros Hexec. induction fuel as [|fuel IH]; cbn [Handle.repeatWhile]; [reflexivity |].
  now rewrite Hexec, IH.
Qed.

Lemma repeatWhile_empty_match_loops_witness :
  Handle.repeatWhile 1000 (exec_g (Many true 0 Space) "ph: *mut hexchat_plugin") 0 = None.
Proof.
  exact (repeatWhile_empty_match_loops (Many true 0 Space) "ph: *mut hexchat_plugin" 0
           (Match 0 [Some ""] "ph: *mut hexchat_plugin") 1000 eq_refl).
Defined.

(** ** The written file *)






(** ** One line per record *)

Lemma word_not_nl c : is_word c = true -> not_nl c = true.
Proof. destruct c as [[] [] [] [] [] [] [] []]; vm_compute; congruence. Qed.






Lemma word_value_one_line v : word_value v -> one_line v.
Proof.
  intros (w & -> & _ & Hw). unfold one_line. cbn [to_string].
  exact (all_chars_impl _ _ _ word_not_nl Hw).
Qed.
















(** ** The rewriter on a block with one parameter per line *)

Lemma space_not_word c : is_space c = true -> is_word c = false.
Proof. destruct c as [[] [] [] [] [] [] [] []]; vm_compute; congruence. Qed.

Lemma word_not_colon c : is_word c = true -> Ascii.eqb ":" c = false.
Proof. destruct c as [[] [] [] [] [] [] [] []]; vm_compute; congruence. Qed.

Lemma not_nl_eqb c : not_nl c = true -> Ascii.eqb nl c = false.
Proof. unfold not_nl. rewrite Ascii.eqb_sym. now intros ->%negb_true_iff. Qed.

(** Forwards: a lazy repetition in front of a text, when the rest of the
    pattern fails at every character of the class, takes the whole run. *)
Lemma many_lazy_all {A} p w rest (k : string -> option A) x :
  all_chars p w = true ->
  (forall c s, p c = true -> k (String c s) = None) ->
  k rest = Some x ->
  many_lazy p (w +:+ rest) k = Some x.
Proof.
  intros Hall Hfail Hk. induction w as [|c w IH]; cbn [String.append].
  - destruct rest; cbn [many_lazy]; now rewrite Hk.
  - cbn [all_chars] in Hall. apply andb_true_iff in Hall as [Hc Hw].
    cbn [many_lazy]. now rewrite (Hfail c _ Hc), Hc, (IH Hw).
Qed.

Lemma search_skip r whole junk s pos :
  (forall c t q, not_nl c = true -> match_here r whole q (String c t) = None) ->
  all_chars not_nl junk = true ->
  search r whole pos (junk +:+ s) = search r whole (pos + String.length junk) s.
Proof.
  intros Hr. revert pos. induction junk as [|c junk IH]; intros pos Hall.
  - cbn [String.append String.length]. now rewrite Nat.add_0_r.
  - cbn [all_chars] in Hall. apply andb_true_iff in Hall as [Hc Hall].
    cbn [String.append search String.length]. rewrite (Hr _ _ _ Hc), (IH (S pos) Hall).
    f_equal. lia.
Qed.

Lemma search_no_nl r whole junk pos :
  (forall c t q, not_nl c = true -> match_here r whole q (String c t) = None) ->
  match_here r whole (pos + String.length junk) "" = None ->
  all_chars not_nl junk = true ->
  search r whole pos junk = None.
Proof.
  intros Hr Hend Hall. rewrite <- (append_empty_r junk), (search_skip _ _ _ _ _ Hr Hall).
  cbn [search]. now rewrite Hend.
Qed.

Lemma re_depth_needs_nl whole c t q :
  not_nl c = true -> match_here Handle.re_depth whole q (String c t) = None.
Proof.
  intros Hc. unfold match_here, Handle.re_depth. rewrite run_then. cbn [run].
  unfold NL. cbn [strip_prefix]. now rewrite (not_nl_eqb c Hc).
Qed.

Lemma argRegex_needs_nl indent whole c t q :
  not_nl c = true ->
  match_here (Handle.argRegex (Some (NL +:+ indent))) whole q (String c t) = None.
Proof.
  intros Hc. unfold match_here, Handle.argRegex. rewrite run_then. cbn [run to_string].
  unfold NL. cbn [String.append strip_prefix]. now rewrite (not_nl_eqb c Hc).
Qed.

Lemma run_group {A} i r whole s caps (k : string -> list value -> option A) :
  run (Group i r) whole s caps k
  = run r whole s caps (fun s' caps' =>
      k s' (<[i := Some (substring 0 (String.length s - String.length s') s)]> caps')).
Proof. reflexivity. Qed.

(** The indentation pattern at the first parameter line: it captures the
    line feed and the indentation. *)
Lemma re_depth_here whole pos indent name rest :
  indent <> "" -> all_chars is_space indent = true ->
  name <> "" -> all_chars is_word name = true ->
  exists d,
    match_here Handle.re_depth whole pos ((NL +:+ indent) +:+ name +:+ ":" +:+ rest) = Some d
    /\ slot d 1 = Some (NL +:+ indent).
Proof.
  intros Hindent Hspace Hname Hword.
  destruct indent as [|c indent]; [congruence |].
  destruct name as [|n name]; [congruence |].
  cbn [all_chars] in Hspace, Hword.
  apply andb_true_iff in Hspace as [Hc Hspace]. apply andb_true_iff in Hword as [Hn Hword].
  eexists. split.
  - unfold match_here, Handle.re_depth. rewrite run_then.
    rewrite run_group, run_then.
    change ((NL +:+ String c indent) +:+ String n name +:+ ":" +:+ rest)
      with (NL +:+ String c (indent +:+ String n name +:+ ":" +:+ rest)).
    rewrite run_lit_here. cbn [run exactly mem]. rewrite Hc.
    apply many_lazy_all; [exact Hspace | |].
    + intros c' s' Hc'. now rewrite (space_not_word c' Hc').
    + cbn [String.append]. rewrite Hn.
      apply many_lazy_all; [exact Hword | |].
      * intros c' s' Hc'. cbn [strip_prefix]. now rewrite (word_not_colon c' Hc').
      * reflexivity.
  - transitivity
      (Some (substring 0
               (String.length ((NL +:+ String c indent) +:+ String n name +:+ ":" +:+ rest)
                - String.length (String n name +:+ ":" +:+ rest))
               ((NL +:+ String c indent) +:+ String n name +:+ ":" +:+ rest)));
      [reflexivity | now rewrite substring_whole_prefix].
Qed.

(** The argument pattern at a parameter line: it captures the name. *)
Lemma argRegex_here whole pos depth name rest :
  name <> "" -> all_chars is_word name = true ->
  exists m,
    match_here (Handle.argRegex (Some depth)) whole pos (depth +:+ name +:+ ":" +:+ rest)
      = Some m
    /\ slot m 1 = Some name /\ after m = rest.
Proof.
  intros Hname Hword. eexists. split.
  - unfold match_here, Handle.argRegex. cbn [to_string].
    rewrite run_then, run_lit_here, run_then.
    apply run_group_word_all; [exact Hname | exact Hword | reflexivity |].
    rewrite run_lit_here. reflexivity.
  - split; reflexivity.
Qed.

Lemma drop_string_append pre s : drop_string (String.length pre) (pre +:+ s) = s.
Proof. induction pre as [|c pre IH]; [now destruct s | exact IH]. Qed.

Lemma length_append (a b : string) :
  String.length (a +:+ b) = String.length a + String.length b.
Proof. induction a as [|x a IH]; cbn [String.append String.length]; [reflexivity | now rewrite IH]. Qed.

Lemma exec_g_at r pre s :
  exec_g r (pre +:+ s) (String.length pre)
  = match search r (String.length (pre +:+ s)) (String.length pre) s with
    | Some m => (Some m, index m + String.length (matched m))
    | None => (None, 0)
    end.
Proof.
  unfold exec_g. rewrite drop_string_append.
  destruct (Nat.ltb_spec (String.length (pre +:+ s)) (String.length pre)) as [Hlt | _];
    [rewrite length_append in Hlt; lia | reflexivity].
Qed.

Lemma param_lines_cons depth p params tail :
  param_lines depth (p :: params) tail
  = depth +:+ fst p +:+ ":" +:+ snd p +:+ param_lines depth params tail.
Proof.
  cbn [param_lines fold_right]. unfold param_line. now rewrite !append_assoc.
Qed.

Lemma search_here r whole pos s m :
  match_here r whole pos s = Some m -> search r whole pos s = Some m.
Proof. intros H. destruct s; cbn [search]; now rewrite H. Qed.

(** The loop over the parameter lines: whatever number of rounds it takes,
    it returns one match per line, with the name of the line, in order. *)
Lemma argument_loop depth close params :
  (forall whole c t q, not_nl c = true ->
     match_here (Handle.argRegex (Some depth)) whole q (String c t) = None) ->
  (forall whole q, match_here (Handle.argRegex (Some depth)) whole q (String nl close) = None) ->
  (forall whole q, match_here (Handle.argRegex (Some depth)) whole q "" = None) ->
  all_chars not_nl close = true ->
  Forall well_laid_out params ->
  forall fuel pre junk found,
    all_chars not_nl junk = true ->
    Handle.repeatWhile fuel
      (exec_g (Handle.argRegex (Some depth))
         (pre +:+ junk +:+ param_lines depth params (NL +:+ close)))
      (String.length pre) = Some found ->
    map (fun m => slot m 1) found = map (fun p => Some (fst p)) params.
Proof.
  intros Hskip Hclosing Hend Hclose Hparams.
  induction Hparams as [|[name ty] params (Hname & Hword & Hty) _ IH];
    intros fuel pre junk found Hjunk; (destruct fuel as [|fuel]; [discriminate |]).
  - cbn [param_lines fold_right Handle.repeatWhile]. rewrite exec_g_at.
    rewrite (search_skip _ _ _ _ _ (Hskip _) Hjunk).
    change (NL +:+ close) with (String nl close). cbn [search].
    rewrite Hclosing, (search_no_nl _ _ _ _ (Hskip _) (Hend _ _) Hclose).
    now intros [= <-].
  - cbn [fst snd] in *. rewrite param_lines_cons. cbn [fst snd Handle.repeatWhile].
    rewrite exec_g_at.
    set (rest := param_lines depth params (NL +:+ close)).
    set (text := pre +:+ junk +:+ depth +:+ name +:+ ":" +:+ ty +:+ rest).
    rewrite (search_skip _ _ _ _ _ (Hskip _) Hjunk).
    destruct (argRegex_here (String.length text) (String.length pre + String.length junk)
                depth name (ty +:+ rest) Hname Hword) as (m & Hm & Hslot & Hafter).
    rewrite (search_here _ _ _ _ _ Hm).
    destruct (Handle.repeatWhile fuel _ _) as [found'|] eqn:Hrec; [| discriminate].
    intros [= <-]. cbn [map]. rewrite Hslot. f_equal.
    apply (IH fuel (pre +:+ junk +:+ depth +:+ name +:+ ":") ty found' Hty).
    pose proof (match_here_inv _ _ _ _ _ Hm) as (Hindex & Hlen & _).
    assert (Htext : (pre +:+ junk +:+ depth +:+ name +:+ ":") +:+ ty
                      +:+ param_lines depth params (NL +:+ close) = text)
      by (unfold text, rest; now rewrite !append_assoc).
    assert (Hli : index m + String.length (matched m)
                  = String.length (pre +:+ junk +:+ depth +:+ name +:+ ":")).
    { rewrite Hindex. rewrite Hafter in Hlen. rewrite !length_append in *.
      cbn [String.length] in *. lia. }
    rewrite Htext, <- Hli. exact Hrec.
Qed.

Lemma argRegex_at_closing indent close whole q :
  indent <> "" -> all_chars is_space indent = true -> stops is_space close = true ->
  match_here (Handle.argRegex (Some (NL +:+ indent))) whole q (String nl close) = None.
Proof.
  intros Hindent Hspace Hstop. unfold match_here, Handle.argRegex. rewrite run_then.
  cbn [run to_string]. unfold NL. cbn [String.append strip_prefix].
  rewrite Ascii.eqb_refl. destruct indent as [|c indent]; [congruence |].
  cbn [all_chars] in Hspace. apply andb_true_iff in Hspace as [Hc _].
  destruct close as [|d close]; cbn [strip_prefix]; [reflexivity |].
  cbn [stops] in Hstop. destruct (Ascii.eqb_spec c d) as [<- | _]; [| reflexivity].
  rewrite Hc in Hstop. discriminate.
Qed.

Lemma argRegex_at_end indent whole q :
  match_here (Handle.argRegex (Some (NL +:+ indent))) whole q "" = None.
Proof. reflexivity. Qed.

(** X18: for a block written with one parameter per line (a line feed, the
    same indentation, the name, a colon, the rest of the line; the closing
    line does not begin with white space), the replacer finds the
    indentation on the first parameter line, collects the names of all the
    parameter lines, leaves out the first, and appends the call that passes
    the handle pointer and then the names of the other parameters, in the
    order of their lines. *)
Theorem parameters_forwarded_in_order (m : rmatch) (head indent close : string)
    (first : string * string) (others : list (string * string)) :
  matched m = layout head indent (first :: others) close ->
  all_chars not_nl head = true ->
  indent <> "" -> all_chars is_space indent = true ->
  all_chars not_nl close = true -> stops is_space close = true ->
  Forall well_laid_out (first :: others) ->
  exists without,
    replace_g Handle.re_ph (fun _ => Some "") (matched m) = Some without
    /\ Handle.rewrite m
       = Some (without +:+ Handle.forward (slot m 1) (map (fun p => Some (fst p)) others)).
Proof.
  intros Hblock Hhead Hindent Hspace Hclose Hstop Hparams.
  unfold Handle.rewrite. rewrite Hblock.
  assert (Hdepth : exists d,
            exec Handle.re_depth (layout head indent (first :: others) close) = Some d
            /\ slot d 1 = Some (NL +:+ indent)).
  { inversion Hparams as [|? ? (Hname & Hword & _) _]; subst.
    unfold exec, layout. rewrite param_lines_cons.
    rewrite (search_skip _ _ _ _ _ (re_depth_needs_nl _) Hhead).
    destruct (re_depth_here
                (String.length (head +:+ (NL +:+ indent) +:+ fst first +:+ ":" +:+ snd first
                   +:+ param_lines (NL +:+ indent) others (NL +:+ close)))
                (0 + String.length head) indent (fst first)
                (snd first +:+ param_lines (NL +:+ indent) others (NL +:+ close))
                Hindent Hspace Hname Hword) as (d & Hd & Hslot).
    exists d. split; [exact (search_here _ _ _ _ _ Hd) | exact Hslot]. }
  destruct Hdepth as (d & -> & ->).
  destruct (allMatches_total (layout head indent (first :: others) close)
              (Some (NL +:+ indent))) as [found Hfound].
  rewrite Hfound. cbn [mbind option_bind].
  destruct (replace_go_total Handle.re_ph (fun _ => Some "")
              (String.length (layout head indent (first :: others) close)) 0
              (layout head indent (first :: others) close) 0) as [without Hwithout]; [eauto |].
  exists without. unfold replace_g. rewrite Hwithout. split; [reflexivity |].
  cbn [mbind option_bind]. do 3 f_equal.
  unfold Handle.allMatches in Hfound.
  rewrite (argument_loop (NL +:+ indent) close (first :: others)
             (argRegex_needs_nl indent)
             (fun whole q => argRegex_at_closing indent close whole q Hindent Hspace Hstop)
             (argRegex_at_end indent) Hclose Hparams _ "" head found Hhead Hfound).
  reflexivity.
Qed.

Lemma parameters_forwarded_in_order_witness :
  exists without,
    replace_g Handle.re_ph (fun _ => Some "") get_info_ph_lines = Some without
    /\ Handle.rewrite (Match 0 [Some get_info_ph_lines; Some "get_info"] "")
       = Some (without +:+ Handle.forward (Some "get_info") [Some "id"]).
Proof.
  apply (parameters_forwarded_in_order
           (Match 0 [Some get_info_ph_lines; Some "get_info"] "")
           "unsafe fn get_info(" "    " ") -> *const c_char {"
           ("ph", " *mut hexchat_plugin,") [("id", " *const c_char,")]);
    try reflexivity; try discriminate.
  repeat constructor; discriminate.
Defined.

(** ** Arrays in their usual shape *)

Lemma word_not_space c : is_word c = true -> is_space c = false.
Proof. destruct c as [[] [] [] [] [] [] [] []]; vm_compute; congruence. Qed.

(** A greedy repetition gives back what it took too much, when the rest of
    the pattern fails everywhere further on. *)
Lemma many_greedy_late {A} p rest (k : string -> option A) :
  (forall u t, rest = u +:+ t -> u <> "" -> k t = None) ->
  many_greedy p rest k = k rest.
Proof.
  induction rest as [|c rest IH]; intros Hlate; cbn [many_greedy]; [reflexivity |].
  destruct (p c); [| reflexivity].
  rewrite IH.
  - now rewrite (Hlate (String c "") rest eq_refl).
  - intros u t -> Hu. now apply (Hlate (String c u) t).
Qed.

Lemma many_greedy_back {A} p w rest (k : string -> option A) x :
  all_chars p w = true ->
  (forall u t, rest = u +:+ t -> u <> "" -> k t = None) ->
  k rest = Some x ->
  many_greedy p (w +:+ rest) k = Some x.
Proof.
  intros Hall Hlate Hk. induction w as [|c w IH]; cbn [String.append].
  - now rewrite many_greedy_late.
  - cbn [all_chars] in Hall. apply andb_true_iff in Hall as [Hc Hw].
    cbn [many_greedy]. now rewrite Hc, (IH Hw).
Qed.

Lemma late_after_label u t :
  QUOTE +:+ ")," = u +:+ t -> u <> "" -> strip_prefix (QUOTE +:+ ")") t = None.
Proof.
  intros H Hu. destruct u as [|a u]; [congruence |].
  unfold QUOTE in *. cbn [String.append] in H. injection H as _ H.
  destruct u as [|b u]; cbn [String.append] in H; [now subst |]. injection H as _ H.
  destruct u as [|c u]; cbn [String.append] in H; [now subst |]. injection H as _ H.
  destruct u; cbn [String.append] in H; [now subst | discriminate].
Qed.

(** A marked literal contributes its label. *)
Lemma field_of_marked label :
  label <> "" -> all_chars is_dot label = true -> field_of (marked label) = Some (Some label).
Proof.
  intros Hne Hdot. unfold field_of.
  change (startsWith (marked label) "}") with false. cbv iota.
  unfold Events.field_match, exec, marked.
  assert (Hm : exists m,
            match_here Events.re_marked
              (String.length (TAB +:+ "N_(" +:+ QUOTE +:+ label +:+ QUOTE +:+ "),")) 1
              (("N_(" +:+ QUOTE) +:+ label +:+ QUOTE +:+ "),") = Some m
            /\ slot m 1 = Some label).
  { destruct label as [|c label]; [congruence |].
    cbn [all_chars] in Hdot. apply andb_true_iff in Hdot as [Hc Hdot].
    eexists. split.
    - unfold match_here, Events.re_marked. rewrite run_then, run_lit_here, run_then, run_group.
      cbn [run exactly mem String.append]. rewrite Hc.
      apply many_greedy_back; [exact Hdot | |].
      + intros u t Hut Hu. now rewrite (late_after_label u t Hut Hu).
      + change (QUOTE +:+ "),") with ((QUOTE +:+ ")") +:+ ",").
        rewrite strip_prefix_append. reflexivity.
    - transitivity
        (Some (substring 0
                 (String.length (String c label +:+ QUOTE +:+ "),")
                  - String.length (QUOTE +:+ "),"))
                 (String c label +:+ QUOTE +:+ "),")));
        [reflexivity | now rewrite substring_whole_prefix]. }
  destruct Hm as (m & Hm & Hslot).
  change (search Events.re_marked ?w 0 (TAB +:+ "N_(" +:+ QUOTE +:+ label +:+ QUOTE +:+ "),"))
    with (search Events.re_marked w 1 (("N_(" +:+ QUOTE) +:+ label +:+ QUOTE +:+ "),")).
  now rewrite (search_here _ _ _ _ _ Hm), Hslot.
Qed.

(** The declaration line of a key declares it. *)
Lemma re_key_declaration key :
  key <> "" -> all_chars is_word key = true ->
  exists m, exec Events.re_key (declaration_line key) = Some m /\ slot m 1 = Some key.
Proof.
  intros Hne Hword. unfold exec, declaration_line.
  assert (Hm : exists m,
            match_here Events.re_key
              (String.length ("static char * const " +:+ key +:+ "[] = {")) 14
              ("const" +:+ " " +:+ key +:+ "[] = {") = Some m
            /\ slot m 1 = Some key).
  { eexists. split.
    - unfold match_here, Events.re_key. rewrite run_then, run_lit_here, run_then.
      apply run_many_all; [discriminate | reflexivity | |].
      + destruct key as [|c key]; [congruence |].
        cbn [all_chars] in Hword. apply andb_true_iff in Hword as [Hc _].
        cbn [String.append stops mem]. now rewrite (word_not_space c Hc).
      + rewrite run_then.
        apply run_group_word_all; [exact Hne | exact Hword | reflexivity |].
        change ("[] = {") with ("[]" +:+ " = {"). rewrite run_lit_here. reflexivity.
    - split. }
  destruct Hm as (m & Hm & Hslot). exists m. split; [| exact Hslot].
  change (search Events.re_key ?w 0 ("static char * const " +:+ key +:+ "[] = {"))
    with (search Events.re_key w 14 ("const" +:+ " " +:+ key +:+ "[] = {")).
  exact (search_here _ _ _ _ _ Hm).
Qed.

Lemma array_block_well_formed a : array_ok a -> well_formed (array_block a).
Proof.
  intros (Hne & Hword & Hlabels). repeat split.
  - exact (re_key_declaration _ Hne Hword).
  - cbn [array_block b_body b_fields].
    induction Hlabels as [|label labels [Hl Hdot] _ IH]; cbn [map]; constructor;
      [exact (field_of_marked label Hl Hdot) | exact IH].
Qed.

(** X19: a [text.c] made of arrays in their usual shape (the line
    [static char * const key[] = {], one line [N_("label"),] per label, the
    line [};] and blank lines) is read without exception, for all keys of
    word characters and all labels without line terminator, and gives for
    each array the descriptor of its key with its labels in order. *)
Theorem arrays_are_read (text_c : string) (arrays : list array_decl) :
  drop Events.commentLines (split_char nl text_c)
    = concat (map (fun a => block_lines (array_block a)) arrays) ->
  Forall array_ok arrays ->
  Events.readDescriptions text_c
  = Some (Gen (map (fun a => Events.Descriptor (Some (a_key a)) (map Some (a_labels a)))
                 arrays) None).
Proof.
  intros Hfile Harrays.
  rewrite (readDescriptions_of_blocks text_c (map array_block arrays)).
  - now rewrite map_map.
  - now rewrite map_map.
  - apply Forall_map. eapply Forall_impl; [exact Harrays | exact array_block_well_formed].
Qed.

Lemma arrays_are_read_witness :
  Events.readDescriptions
    (unlines (replicate 17 " * licence" ++ [""]
              ++ concat (map (fun a => block_lines (array_block a)) sample_arrays)))
  = Some (Gen [Events.Descriptor (Some "pevt_join_help")
                 [Some "The nick of the joining person"; Some "The channel being joined"];
               Events.Descriptor (Some "pevt_capreq_help") [Some "Requested Capabilities"];
               Events.Descriptor (Some "pevt_empty_help") []] None).
Proof.
  apply (arrays_are_read _ sample_arrays); [reflexivity |].
  repeat constructor; discriminate.
Defined.

(** ** Whole preference tables *)

Lemma prefs_loop_table table :
  Forall table_ok table ->
  Prefs.prefs_loop (map table_text table) = Gen (concat (map table_prefs table)) None.
Proof.
  induction 1 as [|l table Hl _ IH]; [reflexivity |]. cbn [map concat].
  destruct l as [indent name mid type rest | line]; cbn [table_text table_prefs table_ok] in *.
  - destruct Hl as ((H1 & H2) & (H3 & H4) & (H5 & H6) & (H7 & H8) & H9 & H10).
    rewrite (prefs_loop_row indent name mid type rest _ H1 H2 H3 H4 H5 H6 H7 H8 H9 H10).
    now rewrite IH.
  - rewrite (prefs_loop_skip line _ Hl). exact IH.
Qed.

(** X20: a [cfgfiles.c] whose lines after the two prefix lines are rows and
    lines the reader passes over (empty, not indented, or holding the zero
    row) is read without exception, and gives one PrefSpec per row, in the
    order of the rows. *)
Theorem table_is_read (cfgfiles_c : string) (table : list table_line) :
  drop Prefs.prefixLines (split_char nl cfgfiles_c) = map table_text table ->
  Forall table_ok table ->
  Prefs.readPrefs cfgfiles_c = Gen (concat (map table_prefs table)) None.
Proof.
  intros Hfile Htable. unfold Prefs.readPrefs. rewrite Hfile.
  exact (prefs_loop_table table Htable).
Qed.

Lemma table_is_read_witness :
  Prefs.readPrefs prefs_row_after_zero
  = Gen [Prefs.Pref (Some "away_auto_unmark") (Some "TYPE_BOOL");
         Prefs.Pref (Some "away_reason") (Some "TYPE_STR")] None.
Proof.
  apply (table_is_read prefs_row_after_zero sample_table); [reflexivity |].
  constructor; [cbn [table_ok]; repeat split; discriminate || reflexivity |].
  constructor; [right; right; reflexivity |].
  constructor; [cbn [table_ok]; repeat split; discriminate || reflexivity |].
  constructor; [right; left; reflexivity |].
  constructor; [left; reflexivity | constructor].
Defined.

(** ** Undefined fields of an event *)

(** X21: every record that the event reader yields has a name; and every
    record but the last has all five fields: a field can only be undefined
    in the last record, when the file ends inside its group. *)
Theorem only_last_event_is_partial (textevents : string) (evs : list Events.EventSpec) :
  Events.readTextEvents textevents = Some evs ->
  Forall (fun e => is_Some (Events.name e)) evs
  /\ forall k e,
       evs !! k = Some e -> S k < length evs ->
       is_Some (Events.signal e) /\ is_Some (Events.fields_key e)
       /\ is_Some (Events.format e) /\ is_Some (Events.field_count_maybe e).
Proof.
  unfold Events.readTextEvents. set (lines := split_char nl textevents). intros Hevs.
  destruct (events_loop_spec (S (length lines)) lines 0) as (evs' & Hrun & Hlo & Hhi & Hnth);
    [lia | lia |].
  rewrite Hrun in Hevs. injection Hevs as ->.
  assert (Hat : forall k e, evs !! k = Some e -> 6 * k < length lines
                            /\ e = event_at lines (6 * k)).
  { intros k e Hk. pose proof (lookup_lt_Some _ _ _ Hk) as Hlt.
    assert (H6 : 6 * k < length lines) by lia. split; [exact H6 |].
    specialize (Hnth k ltac:(lia)). cbn [Nat.add] in Hnth. congruence. }
  split.
  - apply Forall_lookup_2. intros k e Hk. destruct (Hat k e Hk) as [H6 ->].
    cbn [event_at Events.name]. apply lookup_lt_is_Some_2. lia.
  - intros k e Hk Hlast. destruct (Hat k e Hk) as [H6 ->].
    cbn [event_at Events.signal Events.fields_key Events.format Events.field_count_maybe].
    repeat split; apply lookup_lt_is_Some_2; lia.
Qed.

Lemma only_last_event_is_partial_witness :
  Forall (fun e => is_Some (Events.name e))
    [Events.Event (Some "Add Notify") (Some "XP_TE_ADDNOTIFY")
       (Some "pevt_generic_nick_help") (Some "$1 added") (Some "1");
     Events.Event (Some "XP_TE_BANLIST") (Some "pevt_banlist_help")
       (Some "$1 Banlist") (Some "4") None].
Proof.
  exact (proj1 (only_last_event_is_partial two_groups_of_five _ eq_refl)).
Defined.
